(** * dgram: the Deepgram-response to SRT batch converter

    A shallow embedding of [converter/convert.py] and the properties of
    its orchestration loop.

    The script is forty lines of Python around four collaborators:
    [argparse], [glob.glob], [json.loads] and the [deepgram_captions]
    package ([DeepgramConverter], [srt]).  What the script itself
    decides is
    - the order in which the matched files are visited,
    - the order of the steps taken for one file
      (read, decode, parse, convert, derive the output path, write),
    - the output path, computed with [str.replace] and
      [pathlib.Path.with_suffix].

    The embedding follows that split.  [str.replace], the [pathlib]
    operations (CPython 3.8 to 3.13, POSIX flavour) and the UTF-8 codec
    of text-mode files are written out as functions; the file system is
    a finite map from paths to bytes; [glob.glob], [json.loads],
    [DeepgramConverter], [srt] and the fate of a write on the device are
    the fields of a record of collaborators, so that every theorem
    holds for whatever they compute.  The scanner of [json.loads] is
    written out as well, to compare the texts it accepts with valid
    JSON. *)

From Stdlib Require Import ZArith NArith Ascii String List Lia.
From stdpp Require Import base option list gmap strings.

Local Open Scope Z_scope.

(** ** Python strings

    A Python [str] is a sequence of Unicode code points. *)

Abbreviation codepoint := N.
Abbreviation str := (list N).

(** A literal: every character of the Rocq string is one code point. *)
Definition u (s : string) : str := N_of_ascii <$> list_ascii_of_string s.

Definition len {A} (s : list A) : Z := Z.of_nat (length s).

(** [s.startswith(prefix)] *)
Fixpoint startswith (s prefix : str) {struct prefix} : bool :=
  match prefix, s with
  | [], _ => true
  | _ :: _, [] => false
  | p :: prefix', c :: s' => bool_decide (c = p) && startswith s' prefix'
  end.

(** [s.replace(old, new)]: the occurrences of [old] are found scanning
    from the left, do not overlap, and the text put in place of one is
    not scanned again.  [skip] counts the characters of a matched
    occurrence that are still to be passed over. *)
Fixpoint replace_from (skip : nat) (s old new : str) : str :=
  match s with
  | [] => []
  | c :: s' =>
      match skip with
      | S k => replace_from k s' old new
      | O =>
          if startswith s old
          then new ++ replace_from (length old - 1) s' old new
          else c :: replace_from 0 s' old new
      end
  end.

Definition replace (s old new : str) : str :=
  match old with
  | [] => new ++ flat_map (λ c, c :: new) s
  | _ :: _ => replace_from 0 s old new
  end.

(** [s.split(sep)] for a one-character separator: never the empty list. *)
Fixpoint split (sep : codepoint) (s : str) : list str :=
  match s with
  | [] => [[]]
  | c :: s' =>
      if bool_decide (c = sep) then [] :: split sep s'
      else match split sep s' with
           | [] => [[c]]
           | w :: ws => (c :: w) :: ws
           end
  end.

(** [sep.join(parts)] *)
Fixpoint join (sep : str) (parts : list str) : str :=
  match parts with
  | [] => []
  | [w] => w
  | w :: ws => w ++ sep ++ join sep ws
  end.

(** [s.rfind(c)] for a one-character needle: the highest index, or -1. *)
Fixpoint rfind (s : str) (c : codepoint) : Z :=
  match s with
  | [] => -1
  | x :: s' =>
      let i := rfind s' c in
      if 0 <=? i then i + 1
      else if bool_decide (x = c) then 0 else -1
  end.

(** [old in s] *)
Fixpoint contains (s old : str) : bool :=
  startswith s old ||
  match s with
  | [] => false
  | _ :: s' => contains s' old
  end.

(** [s.endswith(suffix)] *)
Definition endswith (s suffix : str) : bool :=
  startswith (rev s) (rev suffix).

(** ** Exceptions *)

Inductive exn : Type :=
  | SystemExit (status : Z)       (* argparse: usage error, status 2 *)
  | FileNotFoundError             (* OSError: no such file *)
  | IsADirectoryError             (* OSError: the path names a directory *)
  | PermissionError               (* OSError: the path cannot be written *)
  | OSError                       (* any other: disk full, I/O error; the
                                     spec's WriteError *)
  | UnicodeDecodeError            (* the spec's DecodeError *)
  | UnicodeEncodeError
  | JSONDecodeError               (* the spec's ParseError *)
  | ValueError
  | Exception (name : string).    (* raised inside deepgram_captions *)

Definition result (A : Type) : Type := exn + A.
Abbreviation Ok := (@inr exn _).
Abbreviation Raise := (@inl exn _).

(** ** pathlib, POSIX flavour

    The drive of a POSIX path is always empty and is left out. *)

Module pathlib.

Definition sep : str := u "/".
Definition sepchar : codepoint := 47%N.
Definition dotchar : codepoint := 46%N.

Record PurePosixPath : Type := mkPath { root : str; tail : list str }.

  (** [posixpath.splitroot], without the drive. *)
Definition splitroot (p : str) : str * str :=
    if negb (bool_decide (take 1 p = sep)) then
      ([], p)                       (* relative path *)
    else if negb (bool_decide (take 1 (drop 1 p) = sep))
            || bool_decide (take 1 (drop 2 p) = sep) then
      (sep, drop 1 p)               (* '/foo', '///foo', '////foo' *)
    else
      (take 2 p, drop 2 p).         (* precisely two leading slashes *)

  (** [PurePath._parse_path] *)
Definition parse_path (path : str) : PurePosixPath :=
    if bool_decide (path = []) then mkPath [] []
    else
      let '(root, rel) := splitroot path in
      mkPath root (filter (λ x, x ≠ [] ∧ x ≠ u ".") (split sepchar rel)).

  (** [Path(file)] *)
Definition Path (file : str) : PurePosixPath := parse_path file.

  (** [str(path)], which is also [os.fspath(path)]. *)
Definition fspath (p : PurePosixPath) : str :=
    let s := root p ++ join sep (tail p) in
    if bool_decide (s = []) then u "." else s.

  (** [path.name]: the final component, if any. *)
Definition name (p : PurePosixPath) : str := default [] (last (tail p)).

  (** [path.suffix] *)
Definition suffix (p : PurePosixPath) : str :=
    let name := name p in
    let i := rfind name dotchar in
    if (0 <? i) && (i <? len name - 1) then drop (Z.to_nat i) name else [].

  (** [path.stem] *)
Definition stem (p : PurePosixPath) : str :=
  let name := name p in
  let i := rfind name dotchar in
  if (0 <? i) && (i <? len name - 1) then take (Z.to_nat i) name else name.

(** [path.with_suffix(suffix)] *)
Definition with_suffix (p : PurePosixPath) (suffix' : str)
    : result PurePosixPath :=
    if bool_decide (sepchar ∈ suffix') then Raise ValueError
    else if (negb (bool_decide (suffix' = [])) && negb (startswith suffix' (u ".")))
            || bool_decide (suffix' = u ".") then Raise ValueError
    else
      let name := name p in
      if bool_decide (name = []) then Raise ValueError
      else
        let old_suffix := suffix p in
        let name :=
          if bool_decide (old_suffix = []) then name ++ suffix'
          else take (length name - length old_suffix) name ++ suffix' in
        Ok (mkPath (root p) (take (length (tail p) - 1) (tail p) ++ [name])).

End pathlib.

(** ** Lines 31 and 33 of [main]: the output path

    [file = file.replace("_response", "")] and
    [output_file = Path(file).with_suffix('.srt')]; the string handed to
    [open] is [os.fspath(output_file)]. *)

Definition output_file (file : str) : result pathlib.PurePosixPath :=
  let file := replace file (u "_response") [] in
  pathlib.with_suffix (pathlib.Path file) (u ".srt").

Definition output_path (file : str) : result str :=
  match output_file file with
  | inl e => inl e
  | inr p => Ok (pathlib.fspath p)
  end.

(** ** Bytes and the UTF-8 codec of text-mode files

    [open(file, encoding="utf-8")] decodes strictly: overlong forms,
    surrogates, code points above U+10FFFF and truncated sequences are
    errors.  Read with the default [newline=None], the text has its line
    ends translated to ["\n"]. *)

Abbreviation bytes := (list Byte.byte).

Definition is_continuation (b : N) : bool := ((0x80 <=? b) && (b <=? 0xBF))%N.

Fixpoint utf_8_decode (bs : list N) : option str :=
  match bs with
  | [] => Some []
  | b0 :: r0 =>
      if (b0 <? 0x80)%N then cons b0 <$> utf_8_decode r0
      else if ((0xC2 <=? b0) && (b0 <=? 0xDF))%N then
        match r0 with
        | b1 :: r1 =>
            if is_continuation b1
            then cons ((b0 - 0xC0) * 64 + (b1 - 0x80))%N <$> utf_8_decode r1
            else None
        | _ => None
        end
      else if ((0xE0 <=? b0) && (b0 <=? 0xEF))%N then
        match r0 with
        | b1 :: b2 :: r2 =>
            let c := ((b0 - 0xE0) * 4096 + (b1 - 0x80) * 64 + (b2 - 0x80))%N in
            if is_continuation b1 && is_continuation b2
               && (0x800 <=? c)%N && negb ((0xD800 <=? c) && (c <=? 0xDFFF))%N
            then cons c <$> utf_8_decode r2
            else None
        | _ => None
        end
      else if ((0xF0 <=? b0) && (b0 <=? 0xF4))%N then
        match r0 with
        | b1 :: b2 :: b3 :: r3 =>
            let c := ((b0 - 0xF0) * 262144 + (b1 - 0x80) * 4096
                      + (b2 - 0x80) * 64 + (b3 - 0x80))%N in
            if is_continuation b1 && is_continuation b2 && is_continuation b3
               && (0x10000 <=? c)%N && (c <=? 0x10FFFF)%N
            then cons c <$> utf_8_decode r3
            else None
        | _ => None
        end
      else None
  end.

Fixpoint universal_newlines (s : str) : str :=
  match s with
  | [] => []
  | c :: s' =>
      if bool_decide (c = 13%N) then
        match s' with
        | c' :: s'' =>
            if bool_decide (c' = 10%N) then 10%N :: universal_newlines s''
            else 10%N :: universal_newlines s'
        | [] => [10%N]
        end
      else c :: universal_newlines s'
  end.

(** What [f.read()] returns for a file holding [data]. *)
Definition decode (data : bytes) : option str :=
  universal_newlines <$> utf_8_decode (Byte.to_N <$> data).

Definition utf_8_encode_char (c : codepoint) : option (list N) :=
  (if c <? 0x80 then Some [c]
   else if c <? 0x800 then Some [0xC0 + c / 64; 0x80 + c mod 64]
   else if (0xD800 <=? c) && (c <=? 0xDFFF) then None
   else if c <? 0x10000 then
     Some [0xE0 + c / 4096; 0x80 + (c / 64) mod 64; 0x80 + c mod 64]
   else if c <=? 0x10FFFF then
     Some [0xF0 + c / 262144; 0x80 + (c / 4096) mod 64;
           0x80 + (c / 64) mod 64; 0x80 + c mod 64]
   else None)%N.

(** What [f.write(s)] puts in the file (on POSIX ["\n"] is written as it
    is); [None] when [s] holds a surrogate. *)
Definition encode (s : str) : option bytes :=
  bs ← mapM utf_8_encode_char s; mapM Byte.of_N (concat bs).

(** ** The file system

    Regular files only, as a finite map from paths to contents.  The key
    of a file is its path with redundant separators and [.] components
    removed, which is the string [pathlib] prints: ["./a//b.json"] and
    ["a/b.json"] are one file.  Directories, [..], links and
    case-insensitive volumes are not modelled.  [unwritable] holds the
    paths that cannot be opened for writing (no permission, no parent
    directory, ...). *)

Record filesystem : Type := mkFs {
  files : gmap str bytes;
  unwritable : gset str
}.

(** A path that is empty fails to resolve; one whose last component is
    empty, [.] or [..] can only name a directory. *)
Definition os_path (path : str) : result str :=
  if bool_decide (path = []) then Raise FileNotFoundError
  else
    let c := default [] (last (split pathlib.sepchar path)) in
    if bool_decide (c = [] ∨ c = u "." ∨ c = u "..") then Raise IsADirectoryError
    else Ok (pathlib.fspath (pathlib.parse_path path)).

(** ** The process: a file system and the file operations performed

    [IoWrite] is a write that stored all of its data; [IoWriteFailed] is
    one that the operating system cut short, with the bytes it did
    store. *)

Inductive io_event : Type :=
  | IoGlob (pattern : str)
  | IoOpenRead (path : str)
  | IoOpenWrite (path : str)
  | IoWrite (path : str) (data : bytes)
  | IoWriteFailed (path : str) (stored : bytes).

Record world : Type := mkWorld {
  fs : filesystem;
  io_log : list io_event       (* oldest first *)
}.

Definition M (A : Type) : Type := world → result A * world.

Global Instance M_ret : MRet M := λ A a w, (Ok a, w).
Global Instance M_bind : MBind M := λ A B k m w,
  match m w with
  | (inr a, w') => k a w'
  | (inl e, w') => (inl e, w')
  end.

Definition lift {A} (r : result A) : M A := λ w, (r, w).
Definition raise {A} (e : exn) : M A := lift (Raise e).
Definition log (ev : io_event) : M unit :=
  λ w, (Ok tt, mkWorld (fs w) (io_log w ++ [ev])).
Definition get_fs : M filesystem := λ w, (Ok (fs w), w).
Definition put_files (fm : gmap str bytes) : M unit :=
  λ w, (Ok tt, mkWorld (mkFs fm (unwritable (fs w))) (io_log w)).

(** [for x in xs: body(x)] *)
Fixpoint for_each {A} (xs : list A) (body : A → M unit) : M unit :=
  match xs with
  | [] => mret tt
  | x :: xs' => body x ≫= λ _, for_each xs' body
  end.

(** [open(file, encoding="utf-8")]: the handle gives the bytes of the
    file. *)
Definition open_r (file : str) : M bytes :=
  log (IoOpenRead file) ≫= λ _,
  key ← lift (os_path file);
  fsys ← get_fs;
  match files fsys !! key with
  | None => raise FileNotFoundError
  | Some data => mret data
  end.

(** [f.read()] on such a handle. *)
Definition read (f : bytes) : M str :=
  match decode f with
  | None => raise UnicodeDecodeError
  | Some text => mret text
  end.

(** [open(path, 'w+', encoding="utf-8")]: the file is created or cut to
    length zero; the handle is the key of the file. *)
Definition open_w (path : str) : M str :=
  log (IoOpenWrite path) ≫= λ _,
  key ← lift (os_path path);
  fsys ← get_fs;
  if bool_decide (key ∈ unwritable fsys) then raise PermissionError
  else put_files (<[key := []]> (files fsys)) ≫= λ _, mret key.

(** ** [json.loads]

    The scanner of the [json] module (CPython 3.8 to 3.13:
    [json/decoder.py], [json/scanner.py] and their C twin
    [Modules/_json.c]) as a recogniser: what the script depends on is
    whether [json.loads] raises [JSONDecodeError].  Each function takes
    the text from the current index on and gives the text that follows
    the item it read, or [None] where the scanner raises.

    With [constants] the grammar is the one of [json.loads], which
    reads [NaN], [Infinity] and [-Infinity] as numbers; without, it is
    the grammar of RFC 8259, which has no such literal.  Not modelled:
    [RecursionError] on a document nested deeper than the interpreter
    allows and, from Python 3.11, [ValueError] on an integer of more
    than 4300 digits. *)

Module json.

(** [WHITESPACE = re.compile(r'[ \t\n\r]*')] *)
Definition is_whitespace (c : codepoint) : bool :=
  bool_decide (c = 32 ∨ c = 9 ∨ c = 10 ∨ c = 13)%N.

Fixpoint skip_whitespace (s : str) : str :=
  match s with
  | c :: s' => if is_whitespace c then skip_whitespace s' else s
  | [] => []
  end.

Definition is_digit (c : codepoint) : bool := ((48 <=? c) && (c <=? 57))%N.

Definition is_hex (c : codepoint) : bool :=
  (is_digit c || ((97 <=? c) && (c <=? 102)) || ((65 <=? c) && (c <=? 70)))%N.

Fixpoint skip_digits (s : str) : str :=
  match s with
  | c :: s' => if is_digit c then skip_digits s' else s
  | [] => []
  end.

(** The character at the index is [c]. *)
Definition expect (c : codepoint) (s : str) : option str :=
  match s with
  | x :: s' => if bool_decide (x = c) then Some s' else None
  | [] => None
  end.

(** [scanstring(s, end, strict=True)], from the character after the
    opening quote: a control character, an unknown escape, a [\u] not
    followed by four hexadecimal digits and the end of the text are
    errors. *)
Fixpoint scanstring (s : str) : option str :=
  match s with
  | [] => None
  | c :: s' =>
      if bool_decide (c = 34%N) then Some s'
      else if bool_decide (c = 92%N) then
        match s' with
        | [] => None
        | esc :: s'' =>
            if bool_decide (esc = 117%N) then
              match s'' with
              | h1 :: h2 :: h3 :: h4 :: s''' =>
                  if is_hex h1 && is_hex h2 && is_hex h3 && is_hex h4
                  then scanstring s''' else None
              | _ => None
              end
            else if bool_decide (esc ∈ u "\/bfnrt" ∨ esc = 34%N)
            then scanstring s'' else None
        end
      else if (c <=? 31)%N then None
      else scanstring s'
  end.

(** [NUMBER_RE]: an optional minus, [0] or a digit from 1 to 9 followed
    by digits, then a fraction and an exponent, each read only when it
    is complete. *)
Definition match_number (s : str) : option str :=
  let s1 := match expect 45 s with Some s' => s' | None => s end in
  match s1 with
  | [] => None
  | c :: s' =>
      s2 ← (if ((49 <=? c) && (c <=? 57))%N then Some (skip_digits s')
            else if bool_decide (c = 48%N) then Some s'
            else None);
      let s3 :=
        match s2 with
        | dot :: d :: s'' =>
            if bool_decide (dot = 46%N) && is_digit d then skip_digits s''
            else s2
        | _ => s2
        end in
      let s4 :=
        match s3 with
        | e :: s'' =>
            if bool_decide (e = 101 ∨ e = 69)%N then
              let s''' :=
                match s'' with
                | sign :: t =>
                    if bool_decide (sign = 43 ∨ sign = 45)%N then t else s''
                | [] => s''
                end in
              match s''' with
              | d :: t => if is_digit d then skip_digits t else s3
              | [] => s3
              end
            else s3
        | [] => s3
        end in
      Some s4
  end.

(** One of some literal words at the index. *)
Fixpoint words (names : list string) (s : str) : option str :=
  match names with
  | [] => None
  | name :: names' =>
      if startswith s (u name) then Some (drop (length (u name)) s)
      else words names' s
  end.

Section Scanner.

Variable constants : bool.

(** [scan_once], [JSONObject] from the first key on and [JSONArray] from
    the first item on.  [fuel] bounds the number of nested calls. *)
Fixpoint scan_once (fuel : nat) (s : str) : option str :=
  match fuel with
  | O => None
  | S fuel =>
      match s with
      | [] => None
      | c :: s' =>
          if bool_decide (c = 34%N) then scanstring s'
          else if bool_decide (c = 123%N) then
            match expect 125 (skip_whitespace s') with
            | Some rest => Some rest
            | None => JSONObject fuel (skip_whitespace s')
            end
          else if bool_decide (c = 91%N) then
            match expect 93 (skip_whitespace s') with
            | Some rest => Some rest
            | None => JSONArray fuel (skip_whitespace s')
            end
          else
            match words ["null"; "true"; "false"] s with
            | Some rest => Some rest
            | None =>
                match (if constants
                       then words ["NaN"; "Infinity"; "-Infinity"] s
                       else None) with
                | Some rest => Some rest
                | None => match_number s
                end
            end
      end
  end
with JSONObject (fuel : nat) (s : str) : option str :=
  match fuel with
  | O => None
  | S fuel =>
      s1 ← expect 34 s;
      s2 ← scanstring s1;
      s3 ← expect 58 (skip_whitespace s2);
      s4 ← scan_once fuel (skip_whitespace s3);
      match expect 125 (skip_whitespace s4) with
      | Some rest => Some rest
      | None =>
          s5 ← expect 44 (skip_whitespace s4);
          JSONObject fuel (skip_whitespace s5)
      end
  end
with JSONArray (fuel : nat) (s : str) : option str :=
  match fuel with
  | O => None
  | S fuel =>
      s1 ← scan_once fuel s;
      match expect 93 (skip_whitespace s1) with
      | Some rest => Some rest
      | None =>
          s2 ← expect 44 (skip_whitespace s1);
          JSONArray fuel (skip_whitespace s2)
      end
  end.

(** [JSONDecoder.decode] behind the test of [json.loads] for a byte
    order mark: one value, white space around it, nothing else.  Every
    nested call reads at least one character, so the fuel is never
    used up. *)
Definition accepts (s : str) : bool :=
  if startswith s [0xFEFF%N] then false
  else
    match scan_once (2 * length s + 2) (skip_whitespace s) with
    | Some rest => bool_decide (skip_whitespace rest = [])
    | None => false
    end.

End Scanner.

(** [json.loads(s)] for a [str]: the document stands for the value it
    denotes. *)
Definition loads (s : str) : option str :=
  if accepts true s then Some s else None.

End json.

(** ** The collaborators

    [glob.glob] reads the directory tree, so its result depends on the
    file system.  [json.loads] gives [None] where it raises
    [JSONDecodeError].  [DeepgramConverter] and [srt] may raise whatever
    they like.  [argparse_dashed] stands for what [argparse] makes of a
    command line in which some argument starts with [-] (options, [-h],
    [--], negative numbers).  [write_fault] is what the operating system
    makes of the write of some data to the file at a path: [None] when
    all of it is stored, [Some n] when the write, or the close at the
    end of the [with] block, raises [OSError] (disk full, quota, I/O
    error) after [n] bytes are stored.  The verdict is taken to depend
    on the path and the data alone. *)

Record collaborators : Type := mkCollaborators {
  JSON : Type;
  Model : Type;
  glob_glob : filesystem → str → list str;
  json_loads : str → option JSON;
  DeepgramConverter : JSON → result Model;
  srt : Model → result str;
  argparse_dashed : list str → result (list str);
  write_fault : str → bytes → option nat
}.

(** ** [convert.py] *)

Section Converter.

Variable C : collaborators.

(** Lines 8 to 11: one positional argument with [nargs='+']. *)
Definition parse_arguments (argv : list str) : result (list str) :=
  if existsb (λ a, startswith a (u "-")) argv then argparse_dashed C argv
  else
    match argv with
    | [] => Raise (SystemExit 2)
    | _ :: _ => Ok argv
    end.

(** Lines 16 to 18: [files] is threaded through the loop. *)
Fixpoint expand_globs (file_globs : list str) (files : list str)
  : M (list str) :=
  match file_globs with
  | [] => mret files
  | file_glob :: rest =>
      log (IoGlob file_glob) ≫= λ _,
      fsys ← get_fs;
      expand_globs rest (files ++ glob_glob C fsys file_glob)
  end.

(** [f.write(s)] on a handle just opened, followed by the close at the
    end of the [with] block: the encoded text is added at the end of
    what the file holds, all of it or, when the operating system fails
    the write, the part that was stored. *)
Definition write (f : str) (s : str) : M unit :=
  match encode s with
  | None => raise UnicodeEncodeError
  | Some data =>
      match write_fault C f data with
      | None =>
          log (IoWrite f data) ≫= λ _,
          fsys ← get_fs;
          put_files (<[f := default [] (files fsys !! f) ++ data]>
                       (files fsys))
      | Some n =>
          log (IoWriteFailed f (take n data)) ≫= λ _,
          fsys ← get_fs;
          put_files (<[f := default [] (files fsys !! f) ++ take n data]>
                       (files fsys)) ≫= λ _,
          raise OSError
      end
  end.

(** Lines 21 to 36: the body of the loop over [files]. *)
Definition process_file (file : str) : M unit :=
  f ← open_r file;
  file_data ← read f;
  dg_response ← lift (from_option Ok (Raise JSONDecodeError)
                        (json_loads C file_data));
  transcription ← lift (DeepgramConverter C dg_response);
  captions ← lift (srt C transcription);
  let file := replace file (u "_response") [] in
  output_file ← lift (pathlib.with_suffix (pathlib.Path file) (u ".srt"));
  f ← open_w (pathlib.fspath output_file);
  write f captions.

(** Lines 13 to 36. *)
Definition main (argv : list str) : M unit :=
  args ← lift (parse_arguments argv);
  files ← expand_globs args [];
  for_each files process_file.

(** Lines 24 to 29 as a function of the bytes read: the caption text of
    a file. *)
Definition captions_of (data : bytes) : result str :=
  match decode data with
  | None => Raise UnicodeDecodeError
  | Some file_data =>
      match json_loads C file_data with
      | None => Raise JSONDecodeError
      | Some dg_response =>
          match DeepgramConverter C dg_response with
          | inl e => inl e
          | inr transcription => srt C transcription
          end
      end
  end.

End Converter.

(** ** Vocabulary of the statements *)

(** The paths opened for reading, and the writes that were completed,
    oldest first. *)
Definition reads (l : list io_event) : list str :=
  omap (λ ev, match ev with IoOpenRead p => Some p | _ => None end) l.

Definition writes (l : list io_event) : list (str * bytes) :=
  omap (λ ev, match ev with IoWrite p d => Some (p, d) | _ => None end) l.

Definition globs (l : list io_event) : list str :=
  omap (λ ev, match ev with IoGlob p => Some p | _ => None end) l.

(** The operations of one file that is converted without error. *)
Definition file_events (file : str) (wr : str * bytes) : list io_event :=
  [IoOpenRead file; IoOpenWrite wr.1; IoWrite wr.1 wr.2].

(** The file map after a sequence of whole-file writes. *)
Definition apply_writes (ws : list (str * bytes)) (fm : gmap str bytes)
  : gmap str bytes :=
  foldl (λ m w, <[w.1 := w.2]> m) fm ws.

(** The world once the patterns have been expanded. *)
Definition globbed (file_globs : list str) (w : world) : world :=
  mkWorld (fs w) (io_log w ++ (IoGlob <$> file_globs)).

(** Valid JSON as the specification has it: the grammar of RFC 8259. *)
Definition valid_json (text : str) : bool := json.accepts false text.

(** What [pathlib] produces: a root that is empty, [/] or [//], and
    components that are neither empty nor [.] and hold no separator. *)
Definition wf_component (w : str) : Prop :=
  w ≠ [] ∧ w ≠ u "." ∧ pathlib.sepchar ∉ w.

Definition wf_path (p : pathlib.PurePosixPath) : Prop :=
  (pathlib.root p = [] ∨ pathlib.root p = pathlib.sep
   ∨ pathlib.root p = pathlib.sep ++ pathlib.sep)
  ∧ Forall wf_component (pathlib.tail p).

(** A directory part: empty, or ending with the separator. *)
Definition dirlike (s : str) : Prop :=
  s = [] ∨ ∃ s0, s = s0 ++ [pathlib.sepchar].

(** The output path as the specification words it: the first occurrence
    of [_response] is taken out of the file name, which is the text
    after the last [/], the extension of the file name is replaced by
    [.srt], and the rest of the path is kept as it is. *)
Fixpoint remove_first (s old : str) : str :=
  match s with
  | [] => []
  | c :: s' =>
      if startswith s old then drop (length old) s
      else c :: remove_first s' old
  end.

Definition spec_output_path (path : str) : str :=
  let pieces := split pathlib.sepchar path in
  let directories := take (length pieces - 1) pieces in
  let filename := remove_first (default [] (last pieces)) (u "_response") in
  let i := rfind filename pathlib.dotchar in
  let stem :=
    if (0 <? i) && (i <? len filename - 1) then take (Z.to_nat i) filename
    else filename in
  join pathlib.sep (directories ++ [stem ++ u ".srt"]).

(** ** A small instance of the collaborators

    Used to run the model on concrete inputs.  Patterns are literal
    paths, matched when the file exists, as [glob.glob] does for a
    pattern without wildcard; a text is taken for JSON when it opens
    with a brace; the captions are one cue whose text is the document. *)

Module Demo.

Definition glob_literal (fsys : filesystem) (pattern : str) : list str :=
  match os_path pattern with
  | inr key => if bool_decide (is_Some (files fsys !! key)) then [pattern] else []
  | inl _ => []
  end.

Definition loads (text : str) : option str :=
  if startswith text (u "{") then Some text else None.

Definition render (document : str) : result str :=
  if contains document (u "results")
  then Ok (u "1" ++ [10%N] ++ u "00:00:00,000 --> 00:00:01,000" ++ [10%N]
           ++ document ++ [10%N])
  else Raise (Exception "KeyError").

Definition C : collaborators :=
  mkCollaborators str str glob_literal loads Ok render
    (λ _, Raise (SystemExit 2)) (λ _ _, None).

Definition b (s : string) : bytes := list_byte_of_string s.

Definition disk (l : list (str * bytes)) : world :=
  mkWorld (mkFs (list_to_map l) ∅) [].

(** Three transcripts, one file that is not JSON, one that is not
    UTF-8. *)
Definition w0 : world :=
  disk [ (u "x.json", b "{results: 1}");
         (u "x_response.json", b "{results: 2}");
         (u "talks_response/a.json", b "{results: 3}");
         (u "bad.json", b "oops");
         (u "latin1.json", [Byte.x7b; Byte.xe9; Byte.x7d]);
         (u "old.srt", b "{results: 4}");
         (u "notes", b "{results: 5}") ].

(** The same on a full disk: every write stops after two bytes. *)
Definition C_full : collaborators :=
  mkCollaborators str str glob_literal loads Ok render
    (λ _, Raise (SystemExit 2)) (λ _ _, Some 2%nat).




(** The world a run leaves, and the caption bytes of a document. *)
Definition after (argv : list str) (w : world) : world := (main C argv w).2.

Definition cue (document : string) : bytes :=
  b "1" ++ [Byte.x0a] ++ b "00:00:00,000 --> 00:00:01,000" ++ [Byte.x0a]
  ++ b document ++ [Byte.x0a].


End Demo.

(** * Properties *)

(** ** Strings *)

Section StringFacts.

Implicit Types (s t w old new : str) (c x : codepoint).

Lemma startswith_prefix s old :
    startswith s old = true ↔ ∃ t, s = old ++ t.
  Proof.
    revert s. induction old as [|p old IH]; intros s; simpl.
    - split; [intros _; by exists s | done].
    - destruct s as [|c s]; simpl.
      + split; [done | intros [t Ht]; discriminate].
      + rewrite andb_true_iff, bool_decide_eq_true, IH. split.
        * intros [-> [t ->]]. by exists t.
        * intros [t Ht]. injection Ht as -> ->. eauto.
  Qed.

Lemma startswith_length s old :
    startswith s old = true → (length old ≤ length s)%nat.
  Proof.
    intros [t ->]%startswith_prefix. rewrite length_app. lia.
  Qed.

  (** A character that is not in [old] ends every occurrence of [old]
      that starts before it. *)
Lemma startswith_stop s t old x :
    x ∉ old →
    startswith (s ++ x :: t) old = startswith (s ++ [x]) old
    ∧ (startswith (s ++ x :: t) old = true → (length old ≤ length s)%nat).
  Proof.
    revert s. induction old as [|p old IH]; intros s Hx; simpl.
    - split; [done | lia].
    - apply not_elem_of_cons in Hx as [Hxp Hx].
      destruct s as [|c s]; simpl.
      + rewrite !bool_decide_eq_false_2 by done. done.
      + destruct (IH s Hx) as [Heq Hlen]. rewrite Heq. split; [done|].
        intros [_ H]%andb_true_iff. rewrite <-Heq in H.
        apply Hlen in H. lia.
  Qed.

Lemma replace_from_absent s old new :
    contains s old = false → replace_from 0 s old new = s.
  Proof.
    induction s as [|c s IH]; [done|].
    cbn [contains]. intros [H1 H2]%orb_false_iff.
    cbn [replace_from]. rewrite H1. f_equal. by apply IH.
  Qed.

Lemma replace_absent s old new :
    old ≠ [] → contains s old = false → replace s old new = s.
  Proof.
    intros Hold H. destruct old; [done|]. by apply replace_from_absent.
  Qed.

Lemma replace_from_stop old new x t :
    old ≠ [] → x ∉ old →
    ∀ s k, (k ≤ length s)%nat →
      replace_from k (s ++ x :: t) old new
      = replace_from k (s ++ [x]) old new ++ replace_from 0 t old new.
  Proof.
    intros Hold Hx. induction s as [|c s IH]; intros k Hk.
    - simpl in Hk. assert (k = 0%nat) as -> by lia.
      destruct old as [|p old]; [done|].
      apply not_elem_of_cons in Hx as [Hxp _].
      cbn. rewrite !bool_decide_eq_false_2 by done. done.
    - destruct k as [|k].
      + change ((c :: s) ++ x :: t) with (c :: (s ++ x :: t)).
        change ((c :: s) ++ [x]) with (c :: (s ++ [x])).
        cbn [replace_from].
        destruct (startswith_stop (c :: s) t old x Hx) as [Heq Hlen].
        change ((c :: s) ++ x :: t) with (c :: (s ++ x :: t)) in Heq, Hlen.
        change ((c :: s) ++ [x]) with (c :: (s ++ [x])) in Heq.
        rewrite Heq. destruct (startswith (c :: s ++ [x]) old) eqn:Hsw.
        * rewrite Heq in Hlen. specialize (Hlen eq_refl). simpl in Hlen.
          rewrite IH by lia. by rewrite app_assoc.
        * rewrite IH by lia. done.
      + simpl in Hk. cbn. apply IH. lia.
  Qed.

  (** [replace] works on each side of a character foreign to [old]. *)
Lemma replace_app_stop s t old new x :
    old ≠ [] → x ∉ old →
    replace (s ++ x :: t) old new
    = replace (s ++ [x]) old new ++ replace t old new.
  Proof.
    intros Hold Hx. destruct old as [|p old]; [done|].
    unfold replace. apply replace_from_stop; [done | done | lia].
  Qed.

Lemma replace_snoc_stop s old new x :
    old ≠ [] → x ∉ old →
    replace (s ++ [x]) old new = replace s old new ++ [x].
  Proof.
    intros Hold Hx. destruct old as [|p old]; [done|]. unfold replace.
    assert (∀ s k, (k ≤ length s)%nat →
      replace_from k (s ++ [x]) (p :: old) new
      = replace_from k s (p :: old) new ++ [x]) as H.
    { clear s. induction s as [|c s IH]; intros k Hk.
      - simpl in Hk. assert (k = 0%nat) as -> by lia.
        apply not_elem_of_cons in Hx as [Hxp _].
        cbn. by rewrite bool_decide_eq_false_2.
      - destruct k as [|k]; [|simpl in Hk; cbn; apply IH; lia].
        change ((c :: s) ++ [x]) with (c :: (s ++ [x])).
        cbn [replace_from].
        destruct (startswith_stop (c :: s) [] (p :: old) x Hx) as [_ Hlen].
        change ((c :: s) ++ [x]) with (c :: (s ++ [x])) in Hlen.
        assert (startswith (c :: s ++ [x]) (p :: old)
                = startswith (c :: s) (p :: old)) as Hsw.
        { destruct (startswith (c :: s ++ [x]) (p :: old)) eqn:E.
          - symmetry. apply startswith_prefix.
            apply startswith_prefix in E as [t Ht].
            specialize (Hlen eq_refl).
            destruct (decide (t = [])) as [->|Hne].
            + rewrite app_nil_r in Ht.
              assert (x ∈ p :: old) by (rewrite <-Ht; set_solver). done.
            + destruct (exists_last Hne) as (t' & y & ->).
              rewrite app_assoc in Ht.
              change (c :: s ++ [x]) with ((c :: s) ++ [x]) in Ht.
              apply app_inj_tail in Ht as [-> _]. eauto.
          - destruct (startswith (c :: s) (p :: old)) eqn:E'; [|done].
            apply startswith_prefix in E' as [t Ht].
            assert (startswith (c :: s ++ [x]) (p :: old) = true); [|congruence].
            apply startswith_prefix. exists (t ++ [x]).
            change (c :: s ++ [x]) with ((c :: s) ++ [x]).
            by rewrite Ht, app_assoc. }
        rewrite Hsw. destruct (startswith (c :: s) (p :: old)) eqn:E.
        + apply startswith_length in E. simpl in E.
          rewrite IH by (simpl; lia). by rewrite app_assoc.
        + by rewrite IH by lia. }
    apply H. lia.
  Qed.

(** Deleting occurrences adds no character. *)
Lemma replace_from_sub s old x :
  ∀ k, x ∈ replace_from k s old [] → x ∈ s.
Proof.
  induction s as [|c s IH]; intros k; [done|].
  destruct k as [|k]; cbn [replace_from].
  - destruct (startswith (c :: s) old).
    + intros H%IH. by right.
    + intros [->|H%IH]%elem_of_cons; [by left | by right].
  - intros H%IH. by right.
Qed.

Lemma replace_sub s old x : old ≠ [] → x ∈ replace s old [] → x ∈ s.
Proof.
  intros Hold. destruct old; [done|]. unfold replace. apply replace_from_sub.
Qed.

Lemma endswith_suffix s t : endswith s t = true ↔ ∃ s0, s = s0 ++ t.
Proof.
  unfold endswith. rewrite startswith_prefix. split.
  - intros [r Hr]. exists (rev r).
    apply (f_equal (@rev N)) in Hr. by rewrite rev_involutive, rev_app_distr,
      rev_involutive in Hr.
  - intros [s0 ->]. exists (rev s0). by rewrite rev_app_distr.
Qed.

Lemma rfind_absent s c : c ∉ s → rfind s c = -1.
Proof.
  induction s as [|x s IH]; [done|].
  intros [Hx Hs]%not_elem_of_cons. cbn [rfind]. rewrite IH by done.
  simpl. by rewrite bool_decide_eq_false_2 by congruence.
Qed.

End StringFacts.

(** ** Splitting and joining *)

Section SplitFacts.

Implicit Types (s t w : str) (c x : codepoint) (ws : list str).

Lemma split_nonempty c s : split c s ≠ [].
  Proof.
    destruct s as [|y s]; simpl; [done|].
    case_bool_decide; [done|]. by destruct (split c s).
  Qed.

Lemma split_absent c w : c ∉ w → split c w = [w].
  Proof.
    induction w as [|y w IH]; [done|].
    intros [Hy Hw]%not_elem_of_cons. simpl.
    rewrite bool_decide_eq_false_2 by done. by rewrite IH.
  Qed.

Lemma split_app c s t : split c (s ++ c :: t) = split c s ++ split c t.
  Proof.
    induction s as [|y s IH]; simpl.
    - by rewrite bool_decide_eq_true_2.
    - rewrite IH. case_bool_decide; [done|].
      pose proof (split_nonempty c s). by destruct (split c s).
  Qed.

Lemma split_components c s : Forall (λ w, c ∉ w) (split c s).
  Proof.
    induction s as [|y s IH]; simpl.
    - repeat constructor. apply not_elem_of_nil.
    - case_bool_decide.
      + constructor; [apply not_elem_of_nil | done].
      + destruct (split c s) as [|w ws].
        * repeat constructor. apply not_elem_of_cons. split; [done|apply not_elem_of_nil].
        * apply Forall_cons in IH as [Hw Hws]. constructor; [|done].
          apply not_elem_of_cons. split; [congruence | done].
  Qed.

  (** Text without a separator, added at the end, extends the last
      piece. *)
Lemma split_snoc c s w :
    c ∉ w →
    ∃ ws l, split c s = ws ++ [l] ∧ split c (s ++ w) = ws ++ [l ++ w].
  Proof.
    intros Hw. induction s as [|y s (ws & l & E1 & E2)]; simpl.
    - exists [], []. by rewrite split_absent.
    - case_bool_decide.
      + exists ([] :: ws), l. by rewrite E1, E2.
      + rewrite E1, E2. destruct ws as [|w0 ws]; simpl.
        * by exists [], (y :: l).
        * by exists ((y :: w0) :: ws), l.
  Qed.

Lemma join_snoc sep ws w :
    ws ≠ [] → join sep (ws ++ [w]) = join sep ws ++ sep ++ w.
  Proof.
    induction ws as [|w0 ws IH]; [done|]; intros _.
    destruct ws as [|w1 ws]; [done|].
    change (join sep ((w0 :: w1 :: ws) ++ [w]))
      with (w0 ++ sep ++ join sep ((w1 :: ws) ++ [w])).
    rewrite IH by done.
    change (join sep (w0 :: w1 :: ws)) with (w0 ++ sep ++ join sep (w1 :: ws)).
    by rewrite <-!app_assoc.
  Qed.

Lemma join_snoc_app sep ws w t :
    join sep (ws ++ [w ++ t]) = join sep (ws ++ [w]) ++ t.
  Proof.
    destruct (decide (ws = [])) as [->|Hne]; [done|].
    rewrite !join_snoc by done. by rewrite <-!app_assoc.
  Qed.

Lemma split_join c ws :
    ws ≠ [] → Forall (λ w, c ∉ w) ws → split c (join [c] ws) = ws.
  Proof.
    induction ws as [|w ws IH]; [done|]; intros _ Hall.
    inversion Hall as [|?? Hw Hws]; subst.
    destruct ws as [|w1 ws]; [by apply split_absent|].
    change (join [c] (w :: w1 :: ws)) with (w ++ c :: join [c] (w1 :: ws)).
    rewrite split_app, IH by done. by rewrite split_absent.
  Qed.

Lemma join_head sep w ws : ∃ t, join sep (w :: ws) = w ++ t.
  Proof. destruct ws; [exists []; simpl; by rewrite app_nil_r | by eexists]. Qed.

Lemma rfind_bounds s c : (-1) <= rfind s c ∧ rfind s c < len s.
  Proof.
    unfold len. induction s as [|x s IH]; simpl; [lia|].
    destruct (0 <=? rfind s c) eqn:E; [lia|]. case_bool_decide; lia.
  Qed.

Lemma rfind_app s t c :
    rfind (s ++ t) c = if 0 <=? rfind t c then len s + rfind t c else rfind s c.
  Proof.
    unfold len. induction s as [|x s IH].
    - simpl. destruct (0 <=? rfind t c) eqn:E; [lia|].
      pose proof (rfind_bounds t c). lia.
    - change ((x :: s) ++ t) with (x :: (s ++ t)). cbn [rfind]. rewrite IH.
      destruct (0 <=? rfind t c) eqn:E.
      + assert ((0 <=? Z.of_nat (length s) + rfind t c) = true) as -> by lia.
        simpl length. lia.
      + done.
  Qed.

Lemma take_init_snoc {A} (l : list A) (a : A) :
    take (length (l ++ [a]) - 1) (l ++ [a]) = l.
  Proof.
    rewrite length_app. simpl.
    replace (length l + 1 - 1)%nat with (length l) by lia.
    by rewrite take_app_length.
  Qed.

Lemma filter_all {A} (P : A → Prop) `{!∀ a, Decision (P a)} (l : list A) :
    Forall P l → filter P l = l.
  Proof.
    induction 1 as [|a l Ha _ IH]; [done|].
    by rewrite filter_cons_True, IH.
  Qed.

End SplitFacts.

(** ** pathlib *)

Section PathFacts.

Import pathlib.

Implicit Types (s t w : str) (p : PurePosixPath).

Lemma sep_eq : sep = [sepchar].
Proof. reflexivity. Qed.

Lemma dot_eq : u "." = [dotchar].
Proof. reflexivity. Qed.

Lemma srt_eq : u ".srt" = dotchar :: u "srt".
Proof. reflexivity. Qed.

Lemma sepchar_not_in_srt : sepchar ∉ u ".srt".
Proof. by apply (bool_decide_eq_false (sepchar ∈ u ".srt")). Qed.

Lemma splitroot_relative s :
  head s ≠ Some sepchar → splitroot s = ([], s).
Proof.
  intros H. unfold splitroot. rewrite sep_eq.
  destruct s as [|c s]; simpl; [done|].
  rewrite take_0. case_bool_decide; [|done]. by simplify_eq.
Qed.

Lemma splitroot_one s :
  head s ≠ Some sepchar → splitroot (sepchar :: s) = (sep, s).
Proof.
  intros H. unfold splitroot. rewrite sep_eq. simpl.
  destruct s as [|c s]; simpl; [done|].
  rewrite ?take_0. case_bool_decide; [|done]. by simplify_eq.
Qed.

Lemma splitroot_two s :
  head s ≠ Some sepchar →
  splitroot (sepchar :: sepchar :: s) = (sep ++ sep, s).
Proof.
  intros H. unfold splitroot. rewrite sep_eq. simpl.
  destruct s as [|c s]; simpl; [done|].
  rewrite take_0. case_bool_decide; [|done]. by simplify_eq.
Qed.

Lemma splitroot_many s :
  splitroot (sepchar :: sepchar :: sepchar :: s)
  = (sep, sepchar :: sepchar :: s).
Proof. reflexivity. Qed.

(** The four shapes of a path string. *)
Lemma splitroot_cases s :
  (head s ≠ Some sepchar ∧ splitroot s = ([], s))
  ∨ (∃ r, s = sepchar :: r ∧ head r ≠ Some sepchar
          ∧ splitroot s = (sep, r))
  ∨ (∃ r, s = sepchar :: sepchar :: r ∧ head r ≠ Some sepchar
          ∧ splitroot s = (sep ++ sep, r))
  ∨ (∃ r, s = sepchar :: sepchar :: sepchar :: r
          ∧ splitroot s = (sep, sepchar :: sepchar :: r)).
Proof.
  destruct (decide (head s = Some sepchar)) as [H1|H1];
    [|left; eauto using splitroot_relative].
  destruct s as [|c1 s]; [done|]. simpl in H1. simplify_eq. right.
  destruct (decide (head s = Some sepchar)) as [H2|H2];
    [|left; eauto using splitroot_one].
  destruct s as [|c2 s]; [done|]. simpl in H2. simplify_eq. right.
  destruct (decide (head s = Some sepchar)) as [H3|H3];
    [|left; eauto using splitroot_two].
  destruct s as [|c3 s]; [done|]. simpl in H3. simplify_eq. right.
  eauto using splitroot_many.
Qed.

Lemma filter_components_wf (ws : list str) :
  Forall (λ w, sepchar ∉ w) ws →
  Forall wf_component (filter (λ x, x ≠ [] ∧ x ≠ u ".") ws).
Proof.
  induction 1 as [|w ws Hw _ IH]; [constructor|].
  destruct (decide (w ≠ [] ∧ w ≠ u ".")) as [[H1 H2]|Hn].
  - rewrite filter_cons_True by done. constructor; [done|apply IH].
  - by rewrite filter_cons_False.
Qed.

Lemma parse_path_wf s : wf_path (parse_path s).
Proof.
  unfold parse_path. case_bool_decide.
  - split; [by left | constructor].
  - destruct (splitroot_cases s)
      as [[_ E]|[(r & _ & _ & E)|[(r & _ & _ & E)|(r & _ & E)]]];
      rewrite E; (split; [simpl; auto|]);
      apply filter_components_wf, split_components.
Qed.

Lemma wf_component_head w : wf_component w → head w ≠ Some sepchar.
Proof.
  intros (Hne & _ & Hsep). destruct w as [|c w]; [done|]. simpl.
  intros [= ->]. apply Hsep. by left.
Qed.

Lemma wf_components_filter (ws : list str) :
  Forall wf_component ws → filter (λ x, x ≠ [] ∧ x ≠ u ".") ws = ws.
Proof.
  intros H. apply filter_all. eapply Forall_impl; [done|].
  by intros w (? & ? & ?).
Qed.

Lemma wf_components_split (ws : list str) :
  ws ≠ [] → Forall wf_component ws → split sepchar (join sep ws) = ws.
Proof.
  intros Hne H. rewrite sep_eq. apply split_join; [done|].
  eapply Forall_impl; [done|]. by intros w (? & ? & ?).
Qed.

(** Printing a path and reading it back gives the same path. *)
Lemma parse_fspath p : wf_path p → parse_path (fspath p) = p.
Proof.
  destruct p as [r ws]. intros [Hr Hws]. simpl in Hr, Hws.
  destruct ws as [|w ws].
  { destruct Hr as [->|[->| ->]]; reflexivity. }
  assert (Hhead : head (join sep (w :: ws)) ≠ Some sepchar).
  { destruct (join_head sep w ws) as [t ->].
    apply Forall_cons in Hws as [Hw _].
    pose proof (wf_component_head w Hw).
    destruct Hw as [Hne _]. by destruct w. }
  assert (Hne : join sep (w :: ws) ≠ []).
  { destruct (join_head sep w ws) as [t ->].
    apply Forall_cons in Hws as [[Hw _] _]. by destruct w. }
  unfold fspath, parse_path. cbn [root tail].
  rewrite (bool_decide_eq_false_2 (r ++ _ = []))
    by (intros [_ ?]%app_eq_nil; done).
  rewrite (bool_decide_eq_false_2 (r ++ _ = []))
    by (intros [_ ?]%app_eq_nil; done).
  assert (splitroot (r ++ join sep (w :: ws)) = (r, join sep (w :: ws))) as ->.
  { destruct Hr as [->|[->| ->]].
    - by apply splitroot_relative.
    - by apply splitroot_one.
    - by apply splitroot_two. }
  by rewrite wf_components_split, wf_components_filter.
Qed.

Lemma fspath_parse_idem s :
  fspath (parse_path (fspath (parse_path s))) = fspath (parse_path s).
Proof. by rewrite parse_fspath by apply parse_path_wf. Qed.

(** *** [with_suffix] *)

Lemma name_snoc r ws w : name (mkPath r (ws ++ [w])) = w.
Proof. unfold name. simpl. by rewrite last_snoc. Qed.

Lemma tail_split p :
  name p ≠ [] → tail p = take (length (tail p) - 1) (tail p) ++ [name p].
Proof.
  unfold name. destruct p as [r ws]. simpl.
  destruct (decide (ws = [])) as [->|Hne]; [done|]. intros _.
  destruct (exists_last Hne) as (ws' & w & ->).
  by rewrite take_init_snoc, last_snoc.
Qed.

Lemma stem_suffix p : stem p ++ suffix p = name p.
Proof.
  unfold stem, suffix.
  destruct ((0 <? rfind (name p) dotchar)
            && (rfind (name p) dotchar <? len (name p) - 1)).
  - apply take_drop.
  - apply app_nil_r.
Qed.

Lemma stem_nonempty p : name p ≠ [] → stem p ≠ [].
Proof.
  intros Hne. unfold stem.
  destruct ((0 <? rfind (name p) dotchar)
            && (rfind (name p) dotchar <? len (name p) - 1)) eqn:E; [|done].
  apply andb_true_iff in E as [E1 E2].
  apply Z.ltb_lt in E1, E2. unfold len in E2.
  intros H%(f_equal length). rewrite length_take in H. simpl in H. lia.
Qed.

(** The new name is the stem followed by the new suffix. *)
Lemma with_suffix_srt p :
  name p ≠ [] →
  with_suffix p (u ".srt")
  = Ok (mkPath (root p)
          (take (length (tail p) - 1) (tail p) ++ [stem p ++ u ".srt"])).
Proof.
  intros Hne. unfold with_suffix.
  rewrite (bool_decide_eq_false_2 _ sepchar_not_in_srt).
  replace (negb (bool_decide (u ".srt" = [])) && negb (startswith (u ".srt") (u "."))
           || bool_decide (u ".srt" = u ".")) with false by reflexivity.
  rewrite (bool_decide_eq_false_2 (name p = [])) by done.
  assert ((if bool_decide (suffix p = []) then name p ++ u ".srt"
           else take (length (name p) - length (suffix p)) (name p) ++ u ".srt")
          = stem p ++ u ".srt") as ->; [|done].
  pose proof (stem_suffix p) as E. case_bool_decide as E'.
  - rewrite E', app_nil_r in E. by rewrite E.
  - rewrite <-E. rewrite length_app, Nat.add_sub. by rewrite take_app_length.
Qed.

Lemma with_suffix_no_name p :
  name p = [] → with_suffix p (u ".srt") = Raise ValueError.
Proof.
  intros E. unfold with_suffix.
  rewrite (bool_decide_eq_false_2 _ sepchar_not_in_srt).
  replace (negb (bool_decide (u ".srt" = [])) && negb (startswith (u ".srt") (u "."))
           || bool_decide (u ".srt" = u ".")) with false by reflexivity.
  by rewrite (bool_decide_eq_true_2 (name p = [])).
Qed.

Lemma rfind_srt w : rfind (w ++ u ".srt") dotchar = len w.
Proof. rewrite rfind_app. change (rfind (u ".srt") dotchar) with 0. simpl. lia. Qed.

(** Whatever the old name, the new one has the suffix [.srt]. *)
Lemma suffix_srt r ws w :
  w ≠ [] → suffix (mkPath r (ws ++ [w ++ u ".srt"])) = u ".srt".
Proof.
  intros Hne. unfold suffix. rewrite name_snoc, rfind_srt.
  unfold len. rewrite length_app. change (length (u ".srt")) with 4%nat.
  assert (0 < length w)%nat by (destruct w; [done | simpl; lia]).
  assert ((0 <? Z.of_nat (length w))
          && (Z.of_nat (length w) <? Z.of_nat (length w + 4) - 1) = true) as ->
    by (apply andb_true_iff; split; apply Z.ltb_lt; lia).
  by rewrite Nat2Z.id, drop_app_length.
Qed.

Lemma stem_sub p x : x ∈ stem p → x ∈ name p.
Proof. rewrite <-(stem_suffix p). set_solver. Qed.

Lemma wf_component_srt w :
  w ≠ [] → sepchar ∉ w → wf_component (w ++ u ".srt").
Proof.
  intros Hne Hsep. split_and!.
  - by destruct w.
  - intros H%(f_equal length). rewrite length_app in H. simpl in H. lia.
  - rewrite elem_of_app. intros [?|H]; [done|]. by apply sepchar_not_in_srt.
Qed.

(** *** A directory part followed by a file name *)

Lemma dirlike_tail c s : dirlike (c :: s) → dirlike s.
Proof.
  intros [H|[s0 H]]; [done|].
  destruct s0 as [|c0 s0]; simpl in H; simplify_eq; [by left|].
  right. by exists s0.
Qed.

Lemma filter_split_snoc rel w :
  dirlike rel → wf_component w →
  filter (λ x, x ≠ [] ∧ x ≠ u ".") (split sepchar (rel ++ w))
  = filter (λ x, x ≠ [] ∧ x ≠ u ".") (split sepchar rel) ++ [w].
Proof.
  intros Hrel (Hne & Hdot & Hsep).
  assert (filter (λ x : str, x ≠ [] ∧ x ≠ u ".") [w] = [w]) as Hw
    by (by rewrite filter_cons_True, filter_nil).
  destruct Hrel as [->|[r0 ->]].
  - simpl. by rewrite split_absent.
  - rewrite <-app_assoc. cbn [app]. rewrite !split_app, !filter_app.
    rewrite (split_absent _ w) by done. rewrite Hw.
    change (split sepchar []) with [[] : str].
    rewrite (filter_cons_False _ []) by (by intros [? _]).
    by rewrite filter_nil, app_nil_r.
Qed.

Lemma head_app_wf s w :
  dirlike s → wf_component w → head s ≠ Some sepchar →
  head (s ++ w) ≠ Some sepchar.
Proof.
  intros _ Hw Hs. destruct s as [|c s]; [|done].
  by apply wf_component_head.
Qed.

Lemma parse_path_snoc d w :
  dirlike d → wf_component w →
  parse_path (d ++ w)
  = mkPath (root (parse_path d)) (tail (parse_path d) ++ [w]).
Proof.
  intros Hd Hw. unfold parse_path.
  destruct (decide (d = [])) as [->|Hne].
  { pose proof Hw as (Hwne & _ & Hsep).
    pose proof (filter_split_snoc [] w Hd Hw) as Hf. simpl in Hf |- *.
    rewrite bool_decide_eq_false_2 by done.
    rewrite splitroot_relative by (by apply wf_component_head).
    by rewrite Hf. }
  rewrite (bool_decide_eq_false_2 (d = [])) by done.
  rewrite (bool_decide_eq_false_2 (d ++ w = []))
    by (intros [? _]%app_eq_nil; done).
  destruct (splitroot_cases d)
    as [[Hh E]|[(r & -> & Hh & E)|[(r & -> & Hh & E)|(r & -> & E)]]];
    rewrite E; cbn [root tail].
  - rewrite splitroot_relative by (by apply head_app_wf).
    by rewrite filter_split_snoc.
  - apply dirlike_tail in Hd. cbn [app].
    rewrite splitroot_one by (by apply head_app_wf).
    by rewrite filter_split_snoc.
  - do 2 apply dirlike_tail in Hd. cbn [app].
    rewrite splitroot_two by (by apply head_app_wf).
    by rewrite filter_split_snoc.
  - cbn [app]. rewrite splitroot_many.
    apply dirlike_tail in Hd.
    change (sepchar :: sepchar :: r ++ w) with ((sepchar :: sepchar :: r) ++ w).
    by rewrite (filter_split_snoc (sepchar :: sepchar :: r) w).
Qed.

(** Every string is a directory part followed by a file name. *)
Lemma dirlike_split s :
  ∃ d w, s = d ++ w ∧ dirlike d ∧ sepchar ∉ w.
Proof.
  induction s as [|c s (d & w & -> & Hd & Hw)].
  - exists [], []. split_and!; [done | by left | apply not_elem_of_nil].
  - destruct Hd as [->|[d0 ->]].
    + destruct (decide (c = sepchar)) as [->|Hc].
      * exists [sepchar], w. split_and!; [done | right; by exists [] | done].
      * exists [], (c :: w). split_and!; [done | by left |].
        apply not_elem_of_cons. by split; [congruence|].
    + exists (c :: d0 ++ [sepchar]), w.
      split_and!; [done | right; by exists (c :: d0) | done].
Qed.

Lemma last_split_snoc d w :
  dirlike d → sepchar ∉ w → last (split sepchar (d ++ w)) = Some w.
Proof.
  intros [->|[d0 ->]] Hw.
  - simpl. by rewrite split_absent.
  - rewrite <-app_assoc. cbn [app].
    by rewrite split_app, (split_absent _ w), last_snoc.
Qed.

Lemma replace_dirlike d w old :
  old ≠ [] → sepchar ∉ old → dirlike d →
  dirlike (replace d old [])
  ∧ replace (d ++ w) old [] = replace d old [] ++ replace w old [].
Proof.
  intros Hold Hsep [->|[d0 ->]].
  - split; [|by destruct old]. left. by destruct old.
  - split.
    + right. exists (replace d0 old []). by apply replace_snoc_stop.
    + rewrite <-app_assoc. cbn [app]. by apply replace_app_stop.
Qed.

(** *** The output path *)

Lemma output_file_Ok file q :
  output_file file = Ok q →
  let p := Path (replace file (u "_response") []) in
  name p ≠ []
  ∧ q = mkPath (root p)
          (take (length (tail p) - 1) (tail p) ++ [stem p ++ u ".srt"]).
Proof.
  unfold output_file. cbv zeta. intros H.
  destruct (decide (name (Path (replace file (u "_response") [])) = []))
    as [E|E].
  - rewrite (with_suffix_no_name _ E) in H. discriminate.
  - rewrite (with_suffix_srt _ E) in H. split; [done|]. by injection H.
Qed.

Lemma output_file_wf file q : output_file file = Ok q → wf_path q.
Proof.
  intros [Hne ->]%output_file_Ok.
  set (p := Path (replace file (u "_response") [])) in *.
  destruct (parse_path_wf (replace file (u "_response") [])) as [Hr Hws].
  fold (Path (replace file (u "_response") [])) in Hr, Hws. fold p in Hr, Hws.
  split; [done|]. cbn [tail].
  apply Forall_app. split; [by apply Forall_take|].
  apply Forall_singleton, wf_component_srt; [by apply stem_nonempty|].
  intros Hin%stem_sub.
  rewrite (tail_split p Hne) in Hws. apply Forall_app in Hws as [_ Hn].
  apply Forall_singleton in Hn as (_ & _ & Hn). done.
Qed.

Lemma output_file_suffix file q :
  output_file file = Ok q → suffix q = u ".srt".
Proof.
  intros [Hne ->]%output_file_Ok. by apply suffix_srt, stem_nonempty.
Qed.

Lemma last_split_fspath p :
  wf_path p → tail p ≠ [] →
  fspath p ≠ [] ∧ last (split sepchar (fspath p)) = last (tail p).
Proof.
  destruct p as [r ws]. intros [Hr Hws] Hne. simpl in Hr, Hws, Hne.
  assert (join sep ws ≠ []) as Hj.
  { destruct ws as [|w ws]; [done|].
    destruct (join_head sep w ws) as [t ->].
    apply Forall_cons in Hws as [[Hw _] _]. by destruct w. }
  unfold fspath. cbn [root tail].
  rewrite bool_decide_eq_false_2 by (intros [_ ?]%app_eq_nil; done).
  split; [intros [_ ?]%app_eq_nil; done|].
  pose proof (wf_components_split ws Hne Hws) as Hs.
  destruct Hr as [->|[->| ->]]; rewrite ?sep_eq; simpl;
    rewrite ?bool_decide_eq_true_2 by done; rewrite <-?sep_eq, Hs;
    by destruct ws.
Qed.

(** The output path is a path the file system resolves to itself. *)
Lemma os_path_output file out :
  output_path file = Ok out → os_path out = Ok out.
Proof.
  unfold output_path. destruct (output_file file) as [e|q] eqn:E; [done|].
  intros [= <-]. pose proof (output_file_wf _ _ E) as Hwf.
  apply output_file_Ok in E as [Hne Hq].
  assert (tail q ≠ []) as Ht by (rewrite Hq; simpl; by destruct (take _ _)).
  destruct (last_split_fspath q Hwf Ht) as [Hnil Hlast].
  unfold os_path. rewrite bool_decide_eq_false_2 by done.
  rewrite Hlast, parse_fspath by done.
  rewrite Hq. cbn [tail]. rewrite last_snoc. cbn [default].
  rewrite bool_decide_eq_false_2; [done|].
  pose proof (stem_nonempty _ Hne) as Hs.
  intros [H|[H|H]]; apply (f_equal length) in H; unfold id in H;
    rewrite length_app in H; simpl in H; lia.
Qed.

End PathFacts.
(** ** The JSON scanner *)

Section JsonFacts.

Import json.

Implicit Types (s r : str) (c : codepoint) (fuel : nat).

Lemma skip_whitespace_length s :
  (length (skip_whitespace s) ≤ length s)%nat.
Proof.
  induction s as [|c s IH]; simpl; [lia|].
  destruct (is_whitespace c); simpl; lia.
Qed.

Lemma skip_digits_length s : (length (skip_digits s) ≤ length s)%nat.
Proof.
  induction s as [|c s IH]; simpl; [lia|].
  destruct (is_digit c); simpl; lia.
Qed.

Lemma expect_length c s r :
  expect c s = Some r → length s = S (length r).
Proof.
  destruct s as [|x s]; simpl; [done|].
  case_bool_decide; [|done]. by intros [= ->].
Qed.

Lemma scanstring_length s r :
  scanstring s = Some r → (length r < length s)%nat.
Proof.
  remember (length s) as n eqn:Hn. revert s r Hn.
  induction n as [n IH] using lt_wf_ind. intros s r -> H.
  destruct s as [|c s]; simpl in H; [done|].
  repeat case_bool_decide.
  - injection H as ->. simpl. lia.
  - destruct s as [|esc s]; [done|].
    repeat case_bool_decide.
    + destruct s as [|h1 [|h2 [|h3 [|h4 s]]]]; try done.
      destruct (_ && _); [|done].
      apply (IH (length s)) in H; simpl in *; [lia | lia | done].
    + apply (IH (length s)) in H; simpl in *; [lia | lia | done].
    + done.
  - destruct (c <=? 31)%N; [done|].
    apply (IH (length s)) in H; simpl in *; [lia | lia | done].
Qed.

Lemma match_number_length s r :
  match_number s = Some r → (length r < length s)%nat.
Proof.
  unfold match_number. intros H.
  assert (∃ s1, (length s1 ≤ length s)%nat
                ∧ match expect 45 s with Some s' => s' | None => s end = s1)
    as (s1 & Hs1 & E).
  { destruct (expect 45 s) as [s'|] eqn:E'; [|by eexists].
    apply expect_length in E'. eexists. split; [|done]. lia. }
  rewrite E in H. clear E. destruct s1 as [|c s']; [discriminate H|].
  simpl in Hs1.
  destruct (if ((49 <=? c) && (c <=? 57))%N then Some (skip_digits s')
            else if bool_decide (c = 48%N) then Some s' else None)
    as [s2|] eqn:E2; [|done].
  assert (length s2 ≤ length s')%nat as Hs2.
  { destruct (_ && _).
    - injection E2 as <-. apply skip_digits_length.
    - case_bool_decide; [|done]. by injection E2 as <-. }
  clear E2. cbn [mbind option_bind] in H. injection H as <-.
  set (s3 := match s2 with
             | dot :: d :: s'' =>
                 if bool_decide (dot = 46%N) && is_digit d
                 then skip_digits s'' else s2
             | _ => s2
             end).
  assert (length s3 ≤ length s2)%nat as Hs3.
  { unfold s3. destruct s2 as [|dot [|d s'']]; [lia..|].
    destruct (bool_decide (dot = 46%N) && is_digit d); [|lia].
    pose proof (skip_digits_length s''). simpl. lia. }
  clearbody s3.
  enough (length (match s3 with
       | e :: s'' =>
           if bool_decide (e = 101 ∨ e = 69)%N then
             match (match s'' with
                    | sign :: t =>
                        if bool_decide (sign = 43 ∨ sign = 45)%N then t
                        else s''
                    | [] => s''
                    end) with
             | d :: t => if is_digit d then skip_digits t else s3
             | [] => s3
             end
           else s3
       | [] => s3
       end) ≤ length s3)%nat by lia.
  destruct s3 as [|e s'']; [simpl; lia|].
  case_bool_decide; [|simpl; lia].
  destruct s'' as [|sign t]; [simpl; lia|].
  case_bool_decide.
  - destruct t as [|d t]; [simpl; lia|].
    destruct (is_digit d); [|simpl; lia].
    pose proof (skip_digits_length t). simpl. lia.
  - destruct (is_digit sign); [|simpl; lia].
    pose proof (skip_digits_length t). simpl. lia.
Qed.

Lemma words_length names s r :
  Forall (λ name, name ≠ EmptyString) names →
  words names s = Some r → (length r < length s)%nat.
Proof.
  induction 1 as [|name names Hname _ IH]; simpl; [done|].
  destruct (startswith s (u name)) eqn:E; [|done].
  intros [= <-]. apply startswith_length in E. rewrite length_drop.
  destruct name; [done|]. simpl in *. lia.
Qed.

(** Every nested call of the scanner reads at least one character:
    what is read with some fuel is read with twice the number of
    characters read. *)
Lemma scanner_fuel (constants : bool) fuel :
  (∀ s r, scan_once constants fuel s = Some r →
     (length r < length s)%nat
     ∧ ∀ fuel', (2 * (length s - length r) ≤ fuel')%nat →
         scan_once constants fuel' s = Some r)
  ∧ (∀ s r, JSONObject constants fuel s = Some r →
     (length r < length s)%nat
     ∧ ∀ fuel', (2 * (length s - length r) - 1 ≤ fuel')%nat →
         JSONObject constants fuel' s = Some r)
  ∧ (∀ s r, JSONArray constants fuel s = Some r →
     (length r < length s)%nat
     ∧ ∀ fuel', (2 * (length s - length r) - 1 ≤ fuel')%nat →
         JSONArray constants fuel' s = Some r).
Proof.
  induction fuel as [|fuel (IH1 & IH2 & IH3)]; [done|].
  split_and!; intros s r H.
  - enough ((length r < length s)%nat
            ∧ ∀ f, (2 * (length s - length r) ≤ S f)%nat →
                scan_once constants (S f) s = Some r) as [H1 H2].
    { split; [done|]. intros [|f] ?; [lia|]. by apply H2. }
    cbn [scan_once] in H |- *. destruct s as [|c s']; [done|]. revert H.
    pose proof (skip_whitespace_length s') as Hws.
    destruct (bool_decide (c = 34%N)).
    { intros H. apply scanstring_length in H as Hl.
      split; [simpl; lia | done]. }
    destruct (bool_decide (c = 123%N)).
    { destruct (expect 125 (skip_whitespace s')) as [rest|] eqn:E.
      - intros [= ->]. apply expect_length in E.
        split; [simpl; lia | done].
      - intros [Hl Hf]%IH2. split; [simpl; lia|].
        intros f Hf'. apply Hf. simpl in Hf'. lia. }
    destruct (bool_decide (c = 91%N)).
    { destruct (expect 93 (skip_whitespace s')) as [rest|] eqn:E.
      - intros [= ->]. apply expect_length in E.
        split; [simpl; lia | done].
      - intros [Hl Hf]%IH3. split; [simpl; lia|].
        intros f Hf'. apply Hf. simpl in Hf'. lia. }
    destruct (words ["null"; "true"; "false"] (c :: s')) as [rest|] eqn:E1.
    { intros [= ->]. apply words_length in E1; [done|].
      repeat constructor; done. }
    destruct (if constants
              then words ["NaN"; "Infinity"; "-Infinity"] (c :: s')
              else None) as [rest|] eqn:E2.
    { intros [= ->]. destruct constants; [|done].
      apply words_length in E2; [done|]. repeat constructor; done. }
    intros H. by apply match_number_length in H as Hl.
  - enough ((length r < length s)%nat
            ∧ ∀ f, (2 * (length s - length r) - 1 ≤ S f)%nat →
                JSONObject constants (S f) s = Some r) as [H1 H2].
    { split; [done|]. intros [|f] ?; [lia|]. by apply H2. }
    cbn [JSONObject] in H |- *. revert H.
    destruct (expect 34 s) as [s1|] eqn:E1; [|done].
    cbn [mbind option_bind].
    destruct (scanstring s1) as [s2|] eqn:E2; [|done].
    cbn [mbind option_bind].
    destruct (expect 58 (skip_whitespace s2)) as [s3|] eqn:E3; [|done].
    cbn [mbind option_bind].
    destruct (scan_once constants fuel (skip_whitespace s3)) as [s4|] eqn:E4;
      [|done].
    cbn [mbind option_bind]. apply IH1 in E4 as [Hl4 Hf4].
    apply expect_length in E1. apply scanstring_length in E2.
    apply expect_length in E3.
    pose proof (skip_whitespace_length s2).
    pose proof (skip_whitespace_length s3).
    pose proof (skip_whitespace_length s4).
    destruct (expect 125 (skip_whitespace s4)) as [rest|] eqn:E5.
    + intros [= ->]. apply expect_length in E5 as L5. split; [lia|].
      intros f Hf. rewrite (Hf4 f) by lia. cbn [mbind option_bind].
      by rewrite E5.
    + destruct (expect 44 (skip_whitespace s4)) as [s5|] eqn:E6; [|done].
      cbn [mbind option_bind]. intros [Hl Hf]%IH2.
      apply expect_length in E6 as L6.
      pose proof (skip_whitespace_length s5). split; [lia|].
      intros f Hf'. rewrite (Hf4 f) by lia. cbn [mbind option_bind].
      rewrite E5, E6. cbn [mbind option_bind]. apply Hf. lia.
  - enough ((length r < length s)%nat
            ∧ ∀ f, (2 * (length s - length r) - 1 ≤ S f)%nat →
                JSONArray constants (S f) s = Some r) as [H1 H2].
    { split; [done|]. intros [|f] ?; [lia|]. by apply H2. }
    cbn [JSONArray] in H |- *. revert H.
    destruct (scan_once constants fuel s) as [s1|] eqn:E1; [|done].
    cbn [mbind option_bind]. apply IH1 in E1 as [Hl1 Hf1].
    pose proof (skip_whitespace_length s1).
    destruct (expect 93 (skip_whitespace s1)) as [rest|] eqn:E2.
    + intros [= ->]. apply expect_length in E2 as L2. split; [lia|].
      intros f Hf. rewrite (Hf1 f) by lia. cbn [mbind option_bind].
      by rewrite E2.
    + destruct (expect 44 (skip_whitespace s1)) as [s2|] eqn:E3; [|done].
      cbn [mbind option_bind]. intros [Hl Hf]%IH3.
      apply expect_length in E3 as L3.
      pose proof (skip_whitespace_length s2). split; [lia|].
      intros f Hf'. rewrite (Hf1 f) by lia. cbn [mbind option_bind].
      rewrite E2, E3. cbn [mbind option_bind]. apply Hf. lia.
Qed.

(** The verdict of [accepts] is not an effect of its bound on the fuel:
    a text is accepted exactly when some fuel reads one value with
    nothing but white space around it. *)
Lemma accepts_spec (constants : bool) s :
  accepts constants s = true
  ↔ startswith s [0xFEFF%N] = false
    ∧ ∃ fuel r, scan_once constants fuel (skip_whitespace s) = Some r
                ∧ skip_whitespace r = [].
Proof.
  unfold accepts. destruct (startswith s [0xFEFF%N]).
  { split; [done | by intros [? _]]. }
  split.
  - destruct (scan_once _ _ _) as [r|] eqn:E; [|done].
    intros Hr%bool_decide_eq_true. split; [done|]. by eexists _, r.
  - intros (_ & fuel & r & E & Hr).
    apply (scanner_fuel constants fuel) in E as [Hl Hf].
    pose proof (skip_whitespace_length s).
    rewrite Hf by lia. by apply bool_decide_eq_true.
Qed.

(** The three constants are no numbers. *)
Lemma constant_is_no_number s r :
  words ["NaN"; "Infinity"; "-Infinity"] s = Some r → match_number s = None.
Proof.
  unfold words.
  destruct (startswith s (u "NaN")) eqn:E1.
  { intros _. by apply startswith_prefix in E1 as [t ->]. }
  destruct (startswith s (u "Infinity")) eqn:E2.
  { intros _. by apply startswith_prefix in E2 as [t ->]. }
  destruct (startswith s (u "-Infinity")) eqn:E3; [|done].
  intros _. by apply startswith_prefix in E3 as [t ->].
Qed.

(** What the grammar of RFC 8259 reads, [json.loads] reads as well. *)
Lemma scanner_constants fuel :
  (∀ s r, scan_once false fuel s = Some r → scan_once true fuel s = Some r)
  ∧ (∀ s r, JSONObject false fuel s = Some r →
       JSONObject true fuel s = Some r)
  ∧ (∀ s r, JSONArray false fuel s = Some r →
       JSONArray true fuel s = Some r).
Proof.
  induction fuel as [|fuel (IH1 & IH2 & IH3)]; [done|].
  split_and!; intros s r.
  - cbn [scan_once]. destruct s as [|c s']; [done|].
    destruct (bool_decide (c = 34%N)); [done|].
    destruct (bool_decide (c = 123%N)).
    { destruct (expect 125 _); [done|]. apply IH2. }
    destruct (bool_decide (c = 91%N)).
    { destruct (expect 93 _); [done|]. apply IH3. }
    destruct (words ["null"; "true"; "false"] (c :: s')); [done|].
    intros H.
    destruct (words ["NaN"; "Infinity"; "-Infinity"] (c :: s')) eqn:E;
      [|done].
    apply constant_is_no_number in E. congruence.
  - cbn [JSONObject]. destruct (expect 34 s) as [s1|]; [|done].
    cbn [mbind option_bind]. destruct (scanstring s1) as [s2|]; [|done].
    cbn [mbind option_bind].
    destruct (expect 58 (skip_whitespace s2)) as [s3|]; [|done].
    cbn [mbind option_bind].
    destruct (scan_once false fuel (skip_whitespace s3)) as [s4|] eqn:E;
      [|done].
    rewrite (IH1 _ _ E). cbn [mbind option_bind].
    destruct (expect 125 (skip_whitespace s4)); [done|].
    destruct (expect 44 (skip_whitespace s4)); [|done].
    cbn [mbind option_bind]. apply IH2.
  - cbn [JSONArray].
    destruct (scan_once false fuel s) as [s1|] eqn:E; [|done].
    rewrite (IH1 _ _ E). cbn [mbind option_bind].
    destruct (expect 93 (skip_whitespace s1)); [done|].
    destruct (expect 44 (skip_whitespace s1)); [|done].
    cbn [mbind option_bind]. apply IH3.
Qed.

(** Every valid JSON text is accepted by [json.loads]: a text that
    [json.loads] rejects is not valid JSON. *)
Lemma valid_json_is_accepted s : valid_json s = true → accepts true s = true.
Proof.
  unfold valid_json. rewrite !accepts_spec.
  intros (Hb & fuel & r & E & Hr). split; [done|]. exists fuel, r.
  split; [|done]. by apply scanner_constants.
Qed.

Lemma loads_rejects_invalid s : loads s = None → valid_json s = false.
Proof.
  unfold loads. destruct (accepts true s) eqn:E; [done|]. intros _.
  destruct (valid_json s) eqn:V; [|done].
  apply valid_json_is_accepted in V. congruence.
Qed.

End JsonFacts.

(** ** The loop *)

Section ProcessFacts.

Variable C : collaborators.

Implicit Types (w : world) (file : str) (fl : list str).

Lemma bind_eq {A B} (m : M A) (k : A → M B) w :
  (m ≫= k) w
  = match m w with
    | (inr a, w') => k a w'
    | (inl e, w') => (inl e, w')
    end.
Proof. reflexivity. Qed.

Lemma for_each_nil {A} (body : A → M unit) w :
  for_each [] body w = (Ok tt, w).
Proof. reflexivity. Qed.

Lemma for_each_cons {A} (x : A) xs body w :
  for_each (x :: xs) body w
  = match body x w with
    | (inr _, w') => for_each xs body w'
    | (inl e, w') => (inl e, w')
    end.
Proof. reflexivity. Qed.

Lemma for_each_app {A} (xs ys : list A) body w :
  for_each (xs ++ ys) body w
  = match for_each xs body w with
    | (inr _, w') => for_each ys body w'
    | (inl e, w') => (inl e, w')
    end.
Proof.
  revert w. induction xs as [|x xs IH]; intros w; [done|].
  change ((x :: xs) ++ ys) with (x :: (xs ++ ys)). rewrite !for_each_cons.
  destruct (body x w) as [[e|[]] w']; [done|]. apply IH.
Qed.

(** Lines 16 to 18 build the concatenation of the matches, each pattern
    being expanded against the file system as it is at the start. *)
Lemma expand_globs_eq file_globs fl w :
  expand_globs C file_globs fl w
  = (Ok (fl ++ concat (glob_glob C (fs w) <$> file_globs)),
     globbed file_globs w).
Proof.
  revert fl w. induction file_globs as [|g gs IH]; intros fl w.
  - simpl. rewrite app_nil_r. unfold globbed. simpl. rewrite app_nil_r.
    by destruct w.
  - cbn [expand_globs]. rewrite bind_eq. cbn [log]. rewrite bind_eq.
    cbn [get_fs fs]. rewrite IH. cbn [fs fmap list_fmap concat]. f_equal.
    + by rewrite app_assoc.
    + unfold globbed. cbn [fs io_log fmap list_fmap].
      by rewrite <-app_assoc.
Qed.

Lemma main_eq argv file_globs w :
  parse_arguments C argv = Ok file_globs →
  main C argv w
  = for_each (concat (glob_glob C (fs w) <$> file_globs)) (process_file C)
      (globbed file_globs w).
Proof.
  intros H. unfold main. rewrite bind_eq. unfold lift at 1. rewrite H.
  rewrite bind_eq, expand_globs_eq. done.
Qed.

(** The body of the loop, one decision after the other. *)
Lemma process_file_eq file w :
  process_file C file w
  = let w1 := mkWorld (fs w) (io_log w ++ [IoOpenRead file]) in
    match os_path file with
    | inl e => (inl e, w1)
    | inr key =>
        match files (fs w) !! key with
        | None => (Raise FileNotFoundError, w1)
        | Some data =>
            match captions_of C data with
            | inl e => (inl e, w1)
            | inr captions =>
                match output_path file with
                | inl e => (inl e, w1)
                | inr out =>
                    let l2 := io_log w1 ++ [IoOpenWrite out] in
                    if bool_decide (out ∈ unwritable (fs w)) then
                      (Raise PermissionError, mkWorld (fs w) l2)
                    else
                      match encode captions with
                      | None =>
                          (Raise UnicodeEncodeError,
                           mkWorld (mkFs (<[out := []]> (files (fs w)))
                                      (unwritable (fs w))) l2)
                      | Some data' =>
                          match write_fault C out data' with
                          | Some n =>
                              (Raise OSError,
                               mkWorld (mkFs (<[out := take n data']>
                                                (files (fs w)))
                                          (unwritable (fs w)))
                                 (l2 ++ [IoWriteFailed out (take n data')]))
                          | None =>
                              (Ok tt,
                               mkWorld (mkFs (<[out := data']> (files (fs w)))
                                          (unwritable (fs w)))
                                 (l2 ++ [IoWrite out data']))
                          end
                      end
                end
            end
        end
    end.
Proof.
  unfold process_file, captions_of, output_path.
  unfold open_r, read, open_w, write, raise.
  rewrite !bind_eq. cbn [log]. rewrite !bind_eq. unfold lift at 1.
  destruct (os_path file) as [e|key]; [done|].
  rewrite !bind_eq. cbn [get_fs fs].
  destruct (files (fs w) !! key) as [data|]; [|done].
  unfold mret, M_ret. rewrite !bind_eq.
  destruct (decode data) as [text|]; [|done].
  rewrite !bind_eq. unfold lift at 1.
  destruct (json_loads C text) as [j|]; [|done]. cbn [from_option].
  rewrite !bind_eq. unfold lift at 1.
  destruct (DeepgramConverter C j) as [e|m]; [done|].
  rewrite !bind_eq. unfold lift at 1.
  destruct (srt C m) as [e|captions]; [done|].
  rewrite !bind_eq. unfold lift at 1. fold (output_file file).
  destruct (output_file file) as [e|q] eqn:Eq; [done|].
  assert (os_path (pathlib.fspath q) = Ok (pathlib.fspath q)) as Hos.
  { apply (os_path_output file). unfold output_path. by rewrite Eq. }
  rewrite !bind_eq. cbn [log]. rewrite !bind_eq. unfold lift at 1.
  rewrite Hos. rewrite !bind_eq. cbn [get_fs fs io_log].
  case_bool_decide; [done|].
  rewrite !bind_eq. cbn [put_files fs io_log files unwritable].
  destruct (encode captions) as [data'|]; [|done].
  destruct (write_fault C (pathlib.fspath q) data') as [n|];
    rewrite !bind_eq; cbn [log fs io_log]; rewrite !bind_eq;
    cbn [get_fs put_files fs io_log files unwritable];
    by rewrite lookup_insert_eq, insert_insert_eq.
Qed.

Ltac process_cases H :=
  rewrite process_file_eq in H; cbv zeta in H;
  repeat match type of H with
         | context [match ?x with _ => _ end] => destruct x eqn:?
         | context [if ?x then _ else _] => destruct x eqn:?
         end;
  simplify_eq.

Ltac log_simpl :=
  unfold reads, writes, globs; cbn [fs io_log unwritable files];
  rewrite ?omap_app; cbn [omap list_omap];
  rewrite <-?app_assoc; cbn [app]; rewrite ?app_nil_r.

(** Whatever the outcome for one file, that file and no other was opened
    for reading, and a write is completed only on success. *)
Lemma process_file_effect file w r w' :
  process_file C file w = (r, w') →
  reads (io_log w') = reads (io_log w) ++ [file]
  ∧ globs (io_log w') = globs (io_log w)
  ∧ unwritable (fs w') = unwritable (fs w)
  ∧ (r ≠ Ok tt → writes (io_log w') = writes (io_log w)).
Proof.
  intros H. process_cases H; log_simpl; split_and!; done.
Qed.

Lemma process_file_Ok file w w' :
  process_file C file w = (Ok tt, w') ↔
  ∃ key data captions out data',
    os_path file = Ok key
    ∧ files (fs w) !! key = Some data
    ∧ captions_of C data = Ok captions
    ∧ output_path file = Ok out
    ∧ (out ∉ unwritable (fs w))
    ∧ encode captions = Some data'
    ∧ write_fault C out data' = None
    ∧ w' = mkWorld (mkFs (<[out := data']> (files (fs w)))
                      (unwritable (fs w)))
             (io_log w
              ++ [IoOpenRead file; IoOpenWrite out; IoWrite out data']).
Proof.
  split.
  - intros H. process_cases H.
    eexists _, _, _, _, _. split_and!; try done.
    + by eapply bool_decide_eq_false_1.
    + cbn [io_log]. by rewrite <-!app_assoc.
  - intros (key & data & captions & out & data' & H1 & H2 & H3 & H4 & H5
            & H6 & H7 & ->).
    rewrite process_file_eq. cbv zeta. rewrite H1, H2, H3, H4, H6, H7.
    rewrite bool_decide_eq_false_2 by done. cbn [io_log].
    by rewrite <-!app_assoc.
Qed.

Lemma apply_writes_snoc ws out data fm :
  apply_writes (ws ++ [(out, data)]) fm = <[out := data]> (apply_writes ws fm).
Proof. unfold apply_writes. by rewrite foldl_app. Qed.

Lemma apply_writes_cons out data ws fm :
  apply_writes ((out, data) :: ws) fm = apply_writes ws (<[out := data]> fm).
Proof. reflexivity. Qed.

(** What a file holds after a sequence of writes: what was written to
    it last, or what it held before. *)
Lemma apply_writes_lookup ws fm fm' key :
  (key ∈ ws.*1 → apply_writes ws fm !! key = apply_writes ws fm' !! key)
  ∧ (key ∉ ws.*1 → apply_writes ws fm !! key = fm !! key).
Proof.
  induction ws as [|[out data] ws IH] using rev_ind.
  - split; [by intros ?%elem_of_nil | done].
  - rewrite !apply_writes_snoc, fmap_app. cbn [fmap list_fmap fst].
    destruct (decide (out = key)) as [->|Hne].
    + rewrite !lookup_insert_eq. split; [done|].
      intros []. apply elem_of_app. right. by left.
    + rewrite !lookup_insert_ne by done. destruct IH as [IH1 IH2]. split.
      * intros [?|[?|?%elem_of_nil]%elem_of_cons]%elem_of_app; by auto.
      * intros Hn. apply IH2. intros ?. apply Hn, elem_of_app. by left.
Qed.

(** Writing whole files is idempotent. *)
Lemma apply_writes_idem ws fm :
  apply_writes ws (apply_writes ws fm) = apply_writes ws fm.
Proof.
  apply map_eq. intros key. destruct (decide (key ∈ ws.*1)) as [Hin|Hn].
  - by apply (proj1 (apply_writes_lookup ws _ _ key)).
  - by rewrite (proj2 (apply_writes_lookup ws (apply_writes ws fm) fm key)).
Qed.

Lemma for_each_effect fl w r w' :
  for_each fl (process_file C) w = (r, w') →
  globs (io_log w') = globs (io_log w)
  ∧ unwritable (fs w') = unwritable (fs w)
  ∧ ∃ k, reads (io_log w') = reads (io_log w) ++ take k fl
         ∧ (r = Ok tt → take k fl = fl).
Proof.
  revert w. induction fl as [|file fl IH]; intros w H.
  - rewrite for_each_nil in H. simplify_eq. split_and!; [done..|].
    exists 0%nat. by rewrite app_nil_r.
  - rewrite for_each_cons in H.
    destruct (process_file C file w) as [[e|[]] w1] eqn:E;
      apply process_file_effect in E as (E1 & E2 & E3 & _).
    + simplify_eq. split_and!; [done..|]. exists 1%nat.
      split; [done | done].
    + apply IH in H as (H1 & H2 & k & H3 & H4).
      split_and!; [congruence..|]. exists (S k). cbn [take].
      split; [by rewrite H3, E1, <-app_assoc|].
      intros Hr. by rewrite H4.
Qed.

(** A run without error writes once per file, in order, each time the
    whole content of the output. *)
Lemma for_each_Ok fl w w' :
  for_each fl (process_file C) w = (Ok tt, w') →
  ∃ ws,
    writes (io_log w') = writes (io_log w) ++ ws
    ∧ Forall2 (λ file wr, output_path file = Ok wr.1) fl ws
    ∧ files (fs w') = apply_writes ws (files (fs w))
    ∧ unwritable (fs w') = unwritable (fs w).
Proof.
  revert w. induction fl as [|file fl IH]; intros w H.
  - rewrite for_each_nil in H. simplify_eq. exists []. by rewrite app_nil_r.
  - rewrite for_each_cons in H.
    destruct (process_file C file w) as [[e|[]] w1] eqn:E; [done|].
    apply process_file_Ok in E
      as (key & data & captions & out & data' & _ & _ & _ & Ho & _ & _ & _
          & ->).
    apply IH in H as (ws & H1 & H2 & H3 & H4).
    exists ((out, data') :: ws). split_and!.
    + rewrite H1. by log_simpl.
    + by constructor.
    + by rewrite H3.
    + by rewrite H4.
Qed.

(** Two runs over the same files, from worlds that agree on those
    files, write the same data. *)
Lemma for_each_lockstep fl wa wa' wb :
  for_each fl (process_file C) wa = (Ok tt, wa') →
  unwritable (fs wb) = unwritable (fs wa) →
  (∀ file key, file ∈ fl → os_path file = Ok key →
     files (fs wb) !! key = files (fs wa) !! key) →
  ∃ ws wb',
    for_each fl (process_file C) wb = (Ok tt, wb')
    ∧ files (fs wa') = apply_writes ws (files (fs wa))
    ∧ files (fs wb') = apply_writes ws (files (fs wb))
    ∧ writes (io_log wa') = writes (io_log wa) ++ ws
    ∧ writes (io_log wb') = writes (io_log wb) ++ ws
    ∧ unwritable (fs wb') = unwritable (fs wb).
Proof.
  revert wa wb. induction fl as [|file fl IH]; intros wa wb H Hu Hin.
  - rewrite for_each_nil in H. simplify_eq. exists [], wb. by rewrite !app_nil_r.
  - rewrite for_each_cons in H.
    destruct (process_file C file wa) as [[e|[]] wa1] eqn:E; [done|].
    apply process_file_Ok in E
      as (key & data & captions & out & data' & H1 & H2 & H3 & H4 & H5
          & H6 & H7 & ->).
    set (wb1 := mkWorld (mkFs (<[out := data']> (files (fs wb)))
                           (unwritable (fs wb)))
                  (io_log wb
                   ++ [IoOpenRead file; IoOpenWrite out; IoWrite out data'])).
    assert (process_file C file wb = (Ok tt, wb1)) as Eb.
    { apply process_file_Ok. exists key, data, captions, out, data'.
      split_and!; try done.
      - rewrite (Hin file key); [done | by left | done].
      - by rewrite Hu. }
    destruct (IH _ wb1 H) as (ws & wb' & I1 & I2 & I3 & I4 & I5 & I6).
    { done. }
    { intros f k Hf Hk. cbn [wb1 fs files].
      destruct (decide (out = k)) as [->|Hne].
      - by rewrite !lookup_insert_eq.
      - rewrite !lookup_insert_ne by done. apply (Hin f); [by right | done]. }
    exists ((out, data') :: ws), wb'. rewrite for_each_cons, Eb.
    split_and!; try done.
    + rewrite I4. by log_simpl.
    + rewrite I5. unfold wb1. by log_simpl.
Qed.

End ProcessFacts.

(** * The claims *)

(** ** The output path (C1, C9, C10) *)

Section OutputPathClaims.

Import pathlib.

Lemma stem_of_name p q : name p = name q → stem p = stem q.
Proof. unfold stem. by intros ->. Qed.

Lemma parse_component w : wf_component w → parse_path w = mkPath [] [w].
Proof.
  intros Hw. by rewrite <-(app_nil_l w), parse_path_snoc by (by left || done).
Qed.

Lemma response_no_sep : sepchar ∉ u "_response".
Proof. by apply (bool_decide_eq_false (sepchar ∈ u "_response")). Qed.

Lemma response_nonempty : u "_response" ≠ [].
Proof. done. Qed.

(** C1, amended: write the matched path as a directory part (empty, or
    ending with [/]) followed by a file name without [/].  The output
    path is computed by deleting every occurrence of [_response], in
    the directory part as well as in the file name, scanning from the
    left; then, when something other than [.] is left of the file
    name, by replacing the suffix of what is left with [.srt] and
    printing the directory part as [pathlib] normalises it.  A part
    that holds no [_response] is not changed by the deletion. *)
Theorem output_path_deletes_every_occurrence (dir filename : str) :
  dirlike dir →
  sepchar ∉ filename →
  replace filename (u "_response") [] ≠ [] →
  replace filename (u "_response") [] ≠ u "." →
  output_path (dir ++ filename)
  = Ok (fspath
          (mkPath (root (Path (replace dir (u "_response") [])))
             (tail (Path (replace dir (u "_response") []))
              ++ [stem (Path (replace filename (u "_response") []))
                  ++ u ".srt"])))
  ∧ (contains dir (u "_response") = false
     → replace dir (u "_response") [] = dir)
  ∧ (contains filename (u "_response") = false
     → replace filename (u "_response") [] = filename).
Proof.
  intros Hd Hsep Hne Hdot.
  destruct (replace_dirlike dir filename (u "_response")
              response_nonempty response_no_sep Hd) as [Hd' Hrep].
  set (dir' := replace dir (u "_response") []) in *.
  set (w := replace filename (u "_response") []) in *.
  assert (wf_component w) as Hw.
  { split_and!; [done..|]. intros Hin. apply Hsep.
    by apply (replace_sub _ (u "_response")). }
  split_and!; [|by apply replace_absent..].
  unfold output_path, output_file. cbv zeta. rewrite Hrep. unfold Path.
  rewrite parse_path_snoc by done.
  rewrite with_suffix_srt by (by rewrite name_snoc).
  cbn [root tail]. rewrite take_init_snoc.
  rewrite (stem_of_name _ (parse_path w)); [done|].
  rewrite (parse_component w) by done. by rewrite name_snoc.
Qed.

(** C9, amended: a matched path that holds no [_response], ends in
    [.srt] and whose final component is not the bare name [.srt] is its
    own output path, up to the normalisation of [pathlib]: both name the
    file [str(Path(file))].  Processing it reads the file, then opens
    that same file for writing and puts there the captions computed from
    what was read. *)
Theorem srt_input_is_overwritten (C : collaborators) (file : str)
    (w w' : world) :
  contains file (u "_response") = false →
  endswith file (u ".srt") = true →
  name (Path file) ≠ u ".srt" →
  os_path file = Ok (fspath (Path file))
  ∧ output_path file = Ok (fspath (Path file))
  ∧ (process_file C file w = (Ok tt, w') →
     ∃ data captions data',
       files (fs w) !! fspath (Path file) = Some data
       ∧ captions_of C data = Ok captions
       ∧ encode captions = Some data'
       ∧ files (fs w') = <[fspath (Path file) := data']> (files (fs w))
       ∧ io_log w'
         = io_log w ++ [IoOpenRead file;
                        IoOpenWrite (fspath (Path file));
                        IoWrite (fspath (Path file)) data']).
Proof.
  intros Habs [q ->]%endswith_suffix Hname.
  destruct (dirlike_split q) as (d & lc & -> & Hd & Hlc).
  rewrite <-app_assoc in *. set (nm := lc ++ u ".srt") in *.
  assert (sepchar ∉ nm) as Hsep.
  { unfold nm. rewrite elem_of_app. intros [?|?]; [done|].
    by apply sepchar_not_in_srt. }
  assert (length nm ≥ 4)%nat as Hlen
    by (unfold nm; rewrite length_app; simpl; lia).
  assert (wf_component nm) as Hw.
  { split_and!; [| |done]; intros H%(f_equal length); simpl in H; lia. }
  assert (Path (d ++ nm)
          = mkPath (root (parse_path d)) (tail (parse_path d) ++ [nm])) as EP
    by (by apply parse_path_snoc).
  rewrite EP in Hname |- *. rewrite name_snoc in Hname.
  assert (lc ≠ []) as Hlcne by (intros ->; done).
  assert (os_path (d ++ nm)
          = Ok (fspath (mkPath (root (parse_path d))
                          (tail (parse_path d) ++ [nm])))) as Eos.
  { unfold os_path.
    rewrite bool_decide_eq_false_2
      by (intros [_ ?]%app_eq_nil; by destruct Hw).
    rewrite last_split_snoc by done. cbn [default from_option id].
    rewrite bool_decide_eq_false_2; [by rewrite <-EP|].
    intros [H|[H|H]]; apply (f_equal length) in H; simpl in H; lia. }
  assert (output_path (d ++ nm)
          = Ok (fspath (mkPath (root (parse_path d))
                          (tail (parse_path d) ++ [nm])))) as Eout.
  { unfold output_path, output_file. cbv zeta.
    rewrite replace_absent by (done || apply response_nonempty).
    rewrite EP. rewrite with_suffix_srt by (by rewrite name_snoc; destruct Hw).
    cbn [root tail]. rewrite take_init_snoc.
    assert (stem (mkPath (root (parse_path d)) (tail (parse_path d) ++ [nm]))
            = lc) as ->; [|done].
    unfold stem. rewrite name_snoc. unfold nm. rewrite rfind_srt.
    unfold len.
    assert (0 < length lc)%nat by (destruct lc; [done | simpl; lia]).
    assert ((0 <? Z.of_nat (length lc))
            && (Z.of_nat (length lc) <? Z.of_nat (length (lc ++ u ".srt")) - 1)
            = true) as ->.
    { rewrite length_app. simpl length.
      apply andb_true_iff; split; apply Z.ltb_lt; lia. }
    by rewrite Nat2Z.id, take_app_length. }
  split_and!; [done..|].
  intros (key & data & captions & out & data' & H1 & H2 & H3 & H4 & H5
          & H6 & _ & ->)%process_file_Ok.
  rewrite Eos in H1. rewrite Eout in H4. simplify_eq.
  by exists data, captions, data'.
Qed.

(** C10: when the final component of the path left by the deletion of
    [_response] has no suffix, which is the case in particular of a
    name that starts with a dot and holds no other dot, the output path
    is that path with [.srt] added at its end; nothing is replaced. *)
Theorem no_suffix_appends_srt (file : str) :
  name (Path (replace file (u "_response") [])) ≠ [] →
  (suffix (Path (replace file (u "_response") [])) = []
   ∨ ∃ rest, name (Path (replace file (u "_response") [])) = dotchar :: rest
             ∧ dotchar ∉ rest) →
  suffix (Path (replace file (u "_response") [])) = []
  ∧ output_path file
    = Ok (fspath (Path (replace file (u "_response") [])) ++ u ".srt").
Proof.
  set (p := Path (replace file (u "_response") [])). intros Hne Hsuf.
  assert (suffix p = []) as Hs.
  { destruct Hsuf as [?|(rest & Hn & Hrest)]; [done|].
    unfold suffix. rewrite Hn. cbn [rfind].
    rewrite rfind_absent by done. simpl.
    by rewrite ?bool_decide_eq_true_2 by done. }
  split; [done|].
  unfold output_path, output_file. cbv zeta. fold p.
  rewrite with_suffix_srt by done.
  pose proof (stem_suffix p) as Hst. rewrite Hs, app_nil_r in Hst.
  rewrite Hst. f_equal. unfold fspath. cbn [root tail].
  rewrite join_snoc_app, <-tail_split by done.
  assert (join sep (tail p) ≠ []) as Hj.
  { rewrite (tail_split p Hne).
    destruct (take (length (tail p) - 1) (tail p)) as [|w0 ws]; [done|].
    rewrite join_snoc by done.
    intros [_ [_ ?]%app_eq_nil]%app_eq_nil. done. }
  assert (0 < length (join sep (tail p)))%nat as Hjl
    by (destruct (join sep (tail p)); [done | simpl; lia]).
  rewrite !bool_decide_eq_false_2; [by rewrite app_assoc|..];
    intros H%(f_equal length); rewrite !length_app in H; simpl in H; lia.
Qed.

End OutputPathClaims.

(** ** The batch (C2 to C8) *)

Section BatchClaims.

Variable C : collaborators.

Lemma globs_globbed file_globs w :
  globs (io_log (globbed file_globs w)) = globs (io_log w) ++ file_globs
  ∧ reads (io_log (globbed file_globs w)) = reads (io_log w)
  ∧ writes (io_log (globbed file_globs w)) = writes (io_log w)
  ∧ fs (globbed file_globs w) = fs w.
Proof.
  unfold globbed, globs, reads, writes. cbn [io_log fs]. rewrite !omap_app.
  assert (∀ l : list str,
    omap (λ ev, match ev with IoGlob p => Some p | _ => None end)
      (IoGlob <$> l) = l
    ∧ omap (λ ev, match ev with IoOpenRead p => Some p | _ => None end)
        (IoGlob <$> l) = []
    ∧ omap (λ ev, match ev with IoWrite p d => Some (p, d) | _ => None end)
        (IoGlob <$> l) = []) as H.
  { induction l as [|g l (IH1 & IH2 & IH3)]; [done|].
    cbn [fmap list_fmap omap list_omap] in *. by rewrite IH1, IH2, IH3. }
  destruct (H file_globs) as (-> & -> & ->). by rewrite !app_nil_r.
Qed.

Lemma size_list_to_set_le (l : list str) :
  (size (list_to_set l : gset str) ≤ length l)%nat.
Proof.
  induction l as [|x l IH]; [done|]. cbn [list_to_set length].
  destruct (decide (x ∈ (list_to_set l : gset str))) as [Hin|Hn].
  - rewrite (subseteq_union_1_L {[x]})
      by (by apply singleton_subseteq_l). lia.
  - rewrite size_union by (by apply disjoint_singleton_l).
    rewrite size_singleton. lia.
Qed.

Lemma size_list_to_set_NoDup (l : list str) :
  size (list_to_set l : gset str) = length l ↔ NoDup l.
Proof.
  split; [|apply size_list_to_set].
  induction l as [|x l IH]; [constructor|]. cbn [list_to_set length].
  intros H. destruct (decide (x ∈ (list_to_set l : gset str))) as [Hin|Hn].
  - rewrite (subseteq_union_1_L {[x]}) in H
      by (by apply singleton_subseteq_l).
    pose proof (size_list_to_set_le l). lia.
  - rewrite size_union, size_singleton in H
      by (by apply disjoint_singleton_l).
    constructor; [by rewrite elem_of_list_to_set in Hn | apply IH; lia].
Qed.

(** C2, amended: when the run ends without error, one write is made
    per matched path, in the order of the matches, each to the output
    path derived from that match and holding nothing but the captions;
    every output path has the suffix [.srt] and names a file that
    exists afterwards.  These are N distinct files exactly when the N
    output paths are pairwise different. *)
Theorem one_write_per_matched_file (argv file_globs : list str)
    (w w' : world) :
  parse_arguments C argv = Ok file_globs →
  main C argv w = (Ok tt, w') →
  ∃ ws : list (str * bytes),
    writes (io_log w') = writes (io_log w) ++ ws
    ∧ length ws = length (concat (glob_glob C (fs w) <$> file_globs))
    ∧ Forall2 (λ file wr, output_path file = Ok wr.1
                          ∧ pathlib.suffix (pathlib.Path wr.1) = u ".srt")
        (concat (glob_glob C (fs w) <$> file_globs)) ws
    ∧ files (fs w') = apply_writes ws (files (fs w))
    ∧ (∀ out, out ∈ ws.*1 → is_Some (files (fs w') !! out))
    ∧ (size (list_to_set ws.*1 : gset str)
       = length (concat (glob_glob C (fs w) <$> file_globs))
       ↔ NoDup ws.*1).
Proof.
  intros Hargs Hmain. rewrite (main_eq C _ _ _ Hargs) in Hmain.
  apply for_each_Ok in Hmain as (ws & H1 & H2 & H3 & H4).
  destruct (globs_globbed file_globs w) as (_ & _ & Ew & Ef).
  rewrite Ew in H1. rewrite Ef in H3.
  pose proof (Forall2_length _ _ _ H2) as Hlen.
  exists ws. split_and!; [done | done | | done | |].
  - eapply Forall2_impl; [done|]. intros file [out data] Ho. split; [done|].
    cbn [fst] in *. unfold output_path in Ho.
    destruct (output_file file) as [e|q] eqn:Eq; [done|]. simplify_eq.
    unfold pathlib.Path.
    rewrite parse_fspath by (by eapply output_file_wf).
    by eapply output_file_suffix.
  - intros out Hout. rewrite H3.
    clear -Hout. induction ws as [|[o d] ws IH] using rev_ind.
    + by apply elem_of_nil in Hout.
    + rewrite apply_writes_snoc. rewrite fmap_app in Hout.
      destruct (decide (o = out)) as [->|Hne].
      * rewrite lookup_insert_eq. eauto.
      * rewrite lookup_insert_ne by done. apply IH.
        apply elem_of_app in Hout as [?|Hout]; [done|].
        apply list_elem_of_singleton in Hout. simpl in Hout. congruence.
  - rewrite Hlen, <-(length_fmap fst ws). apply size_list_to_set_NoDup.
Qed.

(** C3: the files processed are the matches of the first pattern, then
    those of the second, and so on in the order of the arguments, each
    pattern expanded on its own; nothing is sorted and nothing is
    removed, so that a path matched by two patterns occurs twice and is
    read twice.  The files read are a prefix of that sequence, and the
    whole of it when the run ends without error. *)
Theorem files_are_concatenated_matches (argv file_globs : list str)
    (w w' : world) (r : result unit) :
  parse_arguments C argv = Ok file_globs →
  main C argv w = (r, w') →
  main C argv w
  = for_each (concat (glob_glob C (fs w) <$> file_globs)) (process_file C)
      (globbed file_globs w)
  ∧ globs (io_log w') = globs (io_log w) ++ file_globs
  ∧ (∃ k, reads (io_log w')
          = reads (io_log w)
            ++ take k (concat (glob_glob C (fs w) <$> file_globs)))
  ∧ (r = Ok tt →
     reads (io_log w')
     = reads (io_log w) ++ concat (glob_glob C (fs w) <$> file_globs))
  ∧ (∀ gs1 g1 gs2 g2 gs3 file,
       file_globs = gs1 ++ g1 :: gs2 ++ g2 :: gs3 →
       file ∈ glob_glob C (fs w) g1 →
       file ∈ glob_glob C (fs w) g2 →
       ∃ a b c, concat (glob_glob C (fs w) <$> file_globs)
                = a ++ file :: b ++ file :: c).
Proof.
  intros Hargs Hmain. pose proof (main_eq C _ _ w Hargs) as Heq.
  split; [done|]. rewrite Heq in Hmain.
  apply for_each_effect in Hmain as (H1 & _ & k & H2 & H3).
  destruct (globs_globbed file_globs w) as (Eg & Er & _ & _).
  rewrite Eg in H1. rewrite Er in H2.
  split_and!; [done | by exists k | intros Hr; by rewrite H2, (H3 Hr) |].
  intros gs1 g1 gs2 g2 gs3 file -> [l1 [l2 E1]]%list_elem_of_split
    [l3 [l4 E2]]%list_elem_of_split.
  rewrite fmap_app, concat_app, fmap_cons, concat_cons.
  rewrite fmap_app, concat_app, fmap_cons, concat_cons. rewrite E1, E2.
  exists (concat (glob_glob C (fs w) <$> gs1) ++ l1),
    (l2 ++ concat (glob_glob C (fs w) <$> gs2) ++ l3),
    (l4 ++ concat (glob_glob C (fs w) <$> gs3)).
  by rewrite <-!app_assoc.
Qed.


(** C5: a file whose bytes are not UTF-8 makes [process_file] raise
    [UnicodeDecodeError], the spec's DecodeError.  Nothing has been
    opened for writing and the file system is as it was before the
    file; a batch that reaches the file ends there with that error. *)
Theorem invalid_utf8_raises_DecodeError (file key : str) (data : bytes)
    (w : world) :
  os_path file = Ok key →
  files (fs w) !! key = Some data →
  decode data = None →
  process_file C file w
  = (Raise UnicodeDecodeError,
     mkWorld (fs w) (io_log w ++ [IoOpenRead file]))
  ∧ ∀ pre post w0,
      for_each pre (process_file C) w0 = (Ok tt, w) →
      for_each (pre ++ file :: post) (process_file C) w0
      = (Raise UnicodeDecodeError,
         mkWorld (fs w) (io_log w ++ [IoOpenRead file])).
Proof.
  intros H1 H2 H3.
  assert (process_file C file w
          = (Raise UnicodeDecodeError,
             mkWorld (fs w) (io_log w ++ [IoOpenRead file]))) as E.
  { rewrite process_file_eq. cbv zeta. rewrite H1, H2.
    unfold captions_of. by rewrite H3. }
  split; [done|]. intros pre post w0 Hpre.
  by rewrite for_each_app, Hpre, for_each_cons, E.
Qed.

(** C6: without any glob argument [main] stops in [parse_arguments]
    with the usage error of argparse, a [SystemExit] whose status is
    not zero, and hands the world back as it was: no pattern has been
    expanded and no file opened, read or written. *)
Theorem no_argument_is_a_usage_error (w : world) :
  ∃ status,
    main C [] w = (Raise (SystemExit status), w) ∧ status ≠ 0.
Proof. by exists 2. Qed.

(** C7: when the file at position k is the first to raise, the run
    ends with that exception and in the world that file left.  The
    files read are those up to position k and no other, a write has
    been completed for the files before position k only, and what comes
    after position k plays no part in the result. *)
Theorem first_error_aborts_the_batch (argv file_globs pre post : list str)
    (file : str) (w w1 w2 : world) (e : exn) :
  parse_arguments C argv = Ok file_globs →
  concat (glob_glob C (fs w) <$> file_globs) = pre ++ file :: post →
  for_each pre (process_file C) (globbed file_globs w) = (Ok tt, w1) →
  process_file C file w1 = (Raise e, w2) →
  main C argv w = (Raise e, w2)
  ∧ reads (io_log w2) = reads (io_log w) ++ pre ++ [file]
  ∧ writes (io_log w2) = writes (io_log w1)
  ∧ ∃ ws, writes (io_log w1) = writes (io_log w) ++ ws
          ∧ Forall2 (λ f wr, output_path f = Ok wr.1) pre ws.
Proof.
  intros Hargs Hfiles Hpre Hfile.
  destruct (globs_globbed file_globs w) as (_ & Er & Ew & _).
  split_and!.
  - rewrite (main_eq C _ _ _ Hargs), Hfiles.
    by rewrite for_each_app, Hpre, for_each_cons, Hfile.
  - apply process_file_effect in Hfile as (-> & _).
    apply for_each_effect in Hpre as (_ & _ & k & -> & Hk).
    by rewrite Hk, Er, <-app_assoc.
  - apply process_file_effect in Hfile as (_ & _ & _ & Hw). by apply Hw.
  - apply for_each_Ok in Hpre as (ws & H1 & H2 & _).
    exists ws. by rewrite H1, Ew.
Qed.

(** C8: run the converter, then run it again on the same inputs, that
    is with the patterns matching the same paths and those paths
    holding what they held before the first run.  The second run ends
    without error as well, writes the same data to the same paths, and
    leaves the file system exactly as the first run left it: every
    output holds what was last written to it and nothing more. *)
Theorem second_run_changes_nothing (argv file_globs : list str)
    (w0 w1 : world) :
  parse_arguments C argv = Ok file_globs →
  main C argv w0 = (Ok tt, w1) →
  concat (glob_glob C (fs w1) <$> file_globs)
  = concat (glob_glob C (fs w0) <$> file_globs) →
  (∀ file key,
     file ∈ concat (glob_glob C (fs w0) <$> file_globs) →
     os_path file = Ok key →
     files (fs w1) !! key = files (fs w0) !! key) →
  ∃ w2 ws,
    main C argv w1 = (Ok tt, w2)
    ∧ fs w2 = fs w1
    ∧ writes (io_log w1) = writes (io_log w0) ++ ws
    ∧ writes (io_log w2) = writes (io_log w1) ++ ws
    ∧ files (fs w1) = apply_writes ws (files (fs w0)).
Proof.
  intros Hargs Hrun Hsame Hinputs.
  rewrite (main_eq C _ _ _ Hargs) in Hrun.
  destruct (globs_globbed file_globs w0) as (_ & _ & Ew0 & Ef0).
  destruct (globs_globbed file_globs w1) as (_ & _ & Ew1 & Ef1).
  pose proof (for_each_effect C _ _ _ _ Hrun) as (_ & Hu & _).
  destruct (for_each_lockstep C _ _ _ (globbed file_globs w1) Hrun)
    as (ws & w2 & H1 & H2 & H3 & H4 & H5 & H6).
  { by rewrite Ef1, Hu. }
  { intros file key Hin Hkey. rewrite Ef0, Ef1. by apply (Hinputs file). }
  rewrite Ef0 in H2. rewrite Ef1 in H3, H6. rewrite Ew0 in H4.
  rewrite Ew1 in H5.
  exists w2, ws. split_and!; [|..|done].
  - by rewrite (main_eq C _ _ _ Hargs), Hsame.
  - destruct (fs w2) as [f2 u2], (fs w1) as [f1 u1]. cbn in *.
    subst. by rewrite apply_writes_idem.
  - done.
  - done.
Qed.

End BatchClaims.

(** * Concrete runs *)

Section Runs.

Import pathlib.

Ltac run := vm_compute; reflexivity.
Ltac differ := apply (proj1 (bool_decide_eq_false _)); vm_compute; reflexivity.

(** C1 as stated fails: [_response] is deleted from a directory name
    too, and a second occurrence in the file name goes as well. *)
Lemma output_path_counterexample :
  output_path (u "talks_response/a.json") = Ok (u "talks/a.srt")
  ∧ spec_output_path (u "talks_response/a.json") = u "talks_response/a.srt"
  ∧ output_path (u "talks_response/a.json")
    ≠ Ok (spec_output_path (u "talks_response/a.json"))
  ∧ output_path (u "a_response_response.json") = Ok (u "a.srt")
  ∧ spec_output_path (u "a_response_response.json") = u "a_response.srt".
Proof.
  assert (output_path (u "talks_response/a.json") = Ok (u "talks/a.srt"))
    as E1 by run.
  assert (spec_output_path (u "talks_response/a.json")
          = u "talks_response/a.srt") as E2 by run.
  split_and!; [exact E1 | exact E2 | | run | run].
  rewrite E1, E2. intros H.
  assert (u "talks/a.srt" = u "talks_response/a.srt") as H' by congruence.
  revert H'. differ.
Qed.

Lemma output_path_witness :
  dirlike (u "talks_response/")
  ∧ output_path (u "talks_response/" ++ u "a_response_response.json")
    = Ok (u "talks/a.srt").
Proof.
  assert (dirlike (u "talks_response/")) as Hd
    by (right; exists (u "talks_response"); reflexivity).
  split; [exact Hd|].
  refine (eq_trans
    (proj1 (output_path_deletes_every_occurrence
              (u "talks_response/") (u "a_response_response.json")
              Hd _ _ _)) _); [differ | differ | differ | run].
Defined.

(** C9 as stated fails for the file named [.srt]: it has no suffix for
    [pathlib], so that the output goes to [.srt.srt] and the input is
    left as it was. *)
Lemma srt_input_counterexample :
  contains (u ".srt") (u "_response") = false
  ∧ endswith (u ".srt") (u ".srt") = true
  ∧ os_path (u ".srt") = Ok (u ".srt")
  ∧ output_path (u ".srt") = Ok (u ".srt.srt")
  ∧ u ".srt.srt" ≠ u ".srt"
  ∧ process_file Demo.C (u ".srt")
      (Demo.disk [(u ".srt", Demo.b "{results: 0}")])
    = (Ok tt,
       mkWorld
         (mkFs (<[u ".srt.srt" := Demo.cue "{results: 0}"]>
                  {[u ".srt" := Demo.b "{results: 0}"]}) ∅)
         [IoOpenRead (u ".srt"); IoOpenWrite (u ".srt.srt");
          IoWrite (u ".srt.srt") (Demo.cue "{results: 0}")]).
Proof. split_and!; [run | run | run | run | differ | run]. Qed.

Lemma srt_input_witness :
  process_file Demo.C (u "./old.srt") Demo.w0
  = (Ok tt,
     mkWorld
       (mkFs (<[u "old.srt" := Demo.cue "{results: 4}"]>
                (files (fs Demo.w0))) ∅)
       [IoOpenRead (u "./old.srt"); IoOpenWrite (u "old.srt");
        IoWrite (u "old.srt") (Demo.cue "{results: 4}")])
  ∧ os_path (u "./old.srt") = Ok (fspath (Path (u "./old.srt")))
  ∧ output_path (u "./old.srt") = Ok (fspath (Path (u "./old.srt")))
  ∧ fspath (Path (u "./old.srt")) = u "old.srt".
Proof.
  split; [run|].
  destruct (srt_input_is_overwritten Demo.C (u "./old.srt") Demo.w0 Demo.w0)
    as (H1 & H2 & _); [run | run | differ |].
  split_and!; [exact H1 | exact H2 | run].
Defined.

Lemma no_suffix_witness :
  output_path (u "notes") = Ok (u "notes.srt")
  ∧ output_path (u "_response.json") = Ok (u ".json.srt").
Proof.
  split.
  - refine (eq_trans (proj2 (no_suffix_appends_srt (u "notes") _ _)) _);
      [differ | left; run | run].
  - refine (eq_trans
      (proj2 (no_suffix_appends_srt (u "_response.json") _ _)) _);
      [differ | | run].
    right. exists (u "json"). split; [run | differ].
Defined.

(** C2 as stated fails: two matched files, [x.json] and
    [x_response.json], and one output file, [x.srt], which holds the
    captions of the second. *)
Lemma one_output_per_input_counterexample :
  parse_arguments Demo.C [u "x.json"; u "x_response.json"]
  = Ok [u "x.json"; u "x_response.json"]
  ∧ concat (glob_glob Demo.C (fs Demo.w0)
              <$> [u "x.json"; u "x_response.json"])
    = [u "x.json"; u "x_response.json"]
  ∧ main Demo.C [u "x.json"; u "x_response.json"] Demo.w0
    = (Ok tt,
       mkWorld
         (mkFs (<[u "x.srt" := Demo.cue "{results: 2}"]>
                  (files (fs Demo.w0))) ∅)
         [IoGlob (u "x.json"); IoGlob (u "x_response.json");
          IoOpenRead (u "x.json"); IoOpenWrite (u "x.srt");
          IoWrite (u "x.srt") (Demo.cue "{results: 1}");
          IoOpenRead (u "x_response.json"); IoOpenWrite (u "x.srt");
          IoWrite (u "x.srt") (Demo.cue "{results: 2}")])
  ∧ dom (<[u "x.srt" := Demo.cue "{results: 2}"]> (files (fs Demo.w0)))
      ∖ dom (files (fs Demo.w0))
    = ({[ u "x.srt" ]} : gset str)
  ∧ size ({[ u "x.srt" ]} : gset str) ≠ 2%nat.
Proof.
  split_and!; [run | run | run | run |].
  rewrite size_singleton. discriminate.
Qed.

Lemma one_write_witness :
  main Demo.C [u "x.json"; u "talks_response/a.json"] Demo.w0
  = (Ok tt, Demo.after [u "x.json"; u "talks_response/a.json"] Demo.w0)
  ∧ ∃ ws : list (str * bytes),
      writes (io_log (Demo.after [u "x.json"; u "talks_response/a.json"]
                        Demo.w0))
      = writes (io_log Demo.w0) ++ ws
      ∧ length ws
        = length (concat (glob_glob Demo.C (fs Demo.w0)
                            <$> [u "x.json"; u "talks_response/a.json"])).
Proof.
  assert (main Demo.C [u "x.json"; u "talks_response/a.json"] Demo.w0
          = (Ok tt, Demo.after [u "x.json"; u "talks_response/a.json"]
                      Demo.w0)) as Hrun by run.
  split; [exact Hrun|].
  destruct (one_write_per_matched_file Demo.C
              [u "x.json"; u "talks_response/a.json"]
              [u "x.json"; u "talks_response/a.json"] Demo.w0 _
              eq_refl Hrun) as (ws & H1 & H2 & _).
  exists ws. split; [exact H1 | exact H2].
Defined.

Lemma concatenation_witness :
  main Demo.C [u "x.json"; u "notes"; u "./x.json"] Demo.w0
  = (Ok tt, Demo.after [u "x.json"; u "notes"; u "./x.json"] Demo.w0)
  ∧ concat (glob_glob Demo.C (fs Demo.w0)
              <$> [u "x.json"; u "notes"; u "./x.json"])
    = [u "x.json"; u "notes"; u "./x.json"]
  ∧ reads (io_log (Demo.after [u "x.json"; u "notes"; u "./x.json"]
                     Demo.w0))
    = reads (io_log Demo.w0)
      ++ concat (glob_glob Demo.C (fs Demo.w0)
                   <$> [u "x.json"; u "notes"; u "./x.json"]).
Proof.
  assert (main Demo.C [u "x.json"; u "notes"; u "./x.json"] Demo.w0
          = (Ok tt, Demo.after [u "x.json"; u "notes"; u "./x.json"]
                      Demo.w0)) as Hrun by run.
  split; [exact Hrun|]. split; [run|].
  destruct (files_are_concatenated_matches Demo.C
              [u "x.json"; u "notes"; u "./x.json"]
              [u "x.json"; u "notes"; u "./x.json"] Demo.w0 _ _
              eq_refl Hrun) as (_ & _ & _ & H & _).
  exact (H eq_refl).
Defined.



Lemma invalid_utf8_witness :
  process_file Demo.C (u "latin1.json") Demo.w0
  = (Raise UnicodeDecodeError,
     mkWorld (fs Demo.w0) (io_log Demo.w0 ++ [IoOpenRead (u "latin1.json")])).
Proof.
  refine (proj1 (invalid_utf8_raises_DecodeError Demo.C (u "latin1.json")
                   (u "latin1.json") [Byte.x7b; Byte.xe9; Byte.x7d] Demo.w0
                   _ _ _)); run.
Defined.

Lemma first_error_witness :
  main Demo.C [u "x.json"; u "bad.json"; u "notes"] Demo.w0
  = (Raise JSONDecodeError,
     Demo.after [u "x.json"; u "bad.json"; u "notes"] Demo.w0)
  ∧ reads (io_log (Demo.after [u "x.json"; u "bad.json"; u "notes"]
                     Demo.w0))
    = reads (io_log Demo.w0) ++ [u "x.json"] ++ [u "bad.json"].
Proof.
  destruct (first_error_aborts_the_batch Demo.C
              [u "x.json"; u "bad.json"; u "notes"]
              [u "x.json"; u "bad.json"; u "notes"]
              [u "x.json"] [u "notes"] (u "bad.json") Demo.w0
              (for_each [u "x.json"] (process_file Demo.C)
                 (globbed [u "x.json"; u "bad.json"; u "notes"] Demo.w0)).2
              (Demo.after [u "x.json"; u "bad.json"; u "notes"] Demo.w0)
              JSONDecodeError)
    as (H1 & H2 & _); [run | run | run | run |].
  split; [exact H1 | exact H2].
Defined.

Lemma second_run_witness :
  main Demo.C [u "x.json"; u "talks_response/a.json"] Demo.w0
  = (Ok tt, Demo.after [u "x.json"; u "talks_response/a.json"] Demo.w0)
  ∧ ∃ w2,
      main Demo.C [u "x.json"; u "talks_response/a.json"]
        (Demo.after [u "x.json"; u "talks_response/a.json"] Demo.w0)
      = (Ok tt, w2)
      ∧ fs w2
        = fs (Demo.after [u "x.json"; u "talks_response/a.json"] Demo.w0).
Proof.
  assert (main Demo.C [u "x.json"; u "talks_response/a.json"] Demo.w0
          = (Ok tt, Demo.after [u "x.json"; u "talks_response/a.json"]
                      Demo.w0)) as Hrun by run.
  split; [exact Hrun|].
  destruct (second_run_changes_nothing Demo.C
              [u "x.json"; u "talks_response/a.json"]
              [u "x.json"; u "talks_response/a.json"] Demo.w0 _
              eq_refl Hrun) as (w2 & ws & H1 & H2 & _).
  - run.
  - intros file key Hin Hkey.
    assert (concat (glob_glob Demo.C (fs Demo.w0)
                      <$> [u "x.json"; u "talks_response/a.json"])
            = [u "x.json"; u "talks_response/a.json"]) as E by run.
    rewrite E in Hin.
    assert (os_path (u "x.json") = Ok (u "x.json")) as K1 by run.
    assert (os_path (u "talks_response/a.json")
            = Ok (u "talks_response/a.json")) as K2 by run.
    apply elem_of_cons in Hin as [Hf|Hin].
    { rewrite Hf, K1 in Hkey. injection Hkey as <-. run. }
    apply elem_of_cons in Hin as [Hf|Hin].
    { rewrite Hf, K2 in Hkey. injection Hkey as <-. run. }
    apply elem_of_nil in Hin. destruct Hin.
  - exists w2. split; [exact H1 | exact H2].
Defined.

End Runs.

(** * Further properties *)

(** ** The text codec of lines 23 and 35 *)

Section Codec.

Ltac compare :=
  repeat first
    [ rewrite (proj2 (N.ltb_lt _ _)) by lia
    | rewrite (proj2 (N.ltb_ge _ _)) by lia
    | rewrite (proj2 (N.leb_le _ _)) by lia
    | rewrite (proj2 (N.leb_gt _ _)) by lia ];
  cbn [andb negb].

Lemma utf_8_decode_char (c : codepoint) (l rest : list N) :
  utf_8_encode_char c = Some l →
  utf_8_decode (l ++ rest) = cons c <$> utf_8_decode rest.
Proof.
  unfold utf_8_encode_char.
  pose proof (N.div_mod c 64 ltac:(lia)) as D1.
  pose proof (N.mod_lt c 64 ltac:(lia)) as M1.
  pose proof (N.div_mod (c / 64) 64 ltac:(lia)) as D2.
  pose proof (N.mod_lt (c / 64) 64 ltac:(lia)) as M2.
  pose proof (N.div_mod c 4096 ltac:(lia)) as D3.
  pose proof (N.mod_lt c 4096 ltac:(lia)) as M3.
  pose proof (N.div_mod (c / 4096) 64 ltac:(lia)) as D4.
  pose proof (N.mod_lt (c / 4096) 64 ltac:(lia)) as M4.
  pose proof (N.div_mod c 262144 ltac:(lia)) as D5.
  pose proof (N.mod_lt c 262144 ltac:(lia)) as M5.
  set (q1 := (c / 64)%N) in *. set (r1 := (c mod 64)%N) in *.
  set (q2 := (q1 / 64)%N) in *. set (r2 := (q1 mod 64)%N) in *.
  set (q3 := (c / 4096)%N) in *. set (r3 := (c mod 4096)%N) in *.
  set (q4 := (q3 / 64)%N) in *. set (r4 := (q3 mod 64)%N) in *.
  set (q5 := (c / 262144)%N) in *. set (r5 := (c mod 262144)%N) in *.
  clearbody q1 r1 q2 r2 q3 r3 q4 r4 q5 r5.
  destruct (N.ltb_spec c 0x80) as [H1|H1].
  { intros [= <-]. cbn [app utf_8_decode]. by compare. }
  destruct (N.ltb_spec c 0x800) as [H2|H2].
  { intros [= <-]. cbn [app utf_8_decode]. unfold is_continuation.
    compare. do 2 f_equal. lia. }
  destruct (N.leb_spec 0xD800 c) as [H3|H3],
    (N.leb_spec c 0xDFFF) as [H4|H4]; cbn [andb]; try done;
    (destruct (N.ltb_spec c 0x10000) as [H5|H5];
     [|destruct (N.leb_spec c 0x10FFFF) as [H6|H6]; [|done]]);
    intros [= <-]; cbn [app utf_8_decode]; cbv zeta;
    unfold is_continuation; compare; do 2 f_equal; lia.
Qed.

Lemma utf_8_decode_encode (s : str) (ls : list (list N)) :
  mapM utf_8_encode_char s = Some ls → utf_8_decode (concat ls) = Some s.
Proof.
  intros H%mapM_Some_1. induction H as [|c l s ls Hc _ IH]; [done|].
  cbn [concat]. by rewrite (utf_8_decode_char c l _ Hc), IH.
Qed.

Lemma bytes_to_N (ns : list N) (data : bytes) :
  mapM Byte.of_N ns = Some data → Byte.to_N <$> data = ns.
Proof.
  intros H%mapM_Some_1. induction H as [|n b ns data Hb _ IH]; [done|].
  cbn [fmap list_fmap]. f_equal; [by apply Byte.to_of_N | done].
Qed.

(** X1: text that the script can write is read back by the script as
    the same text, with its line ends turned into ["\n"]: the bytes
    produced by [f.write] are valid UTF-8 for [f.read]. *)
Theorem written_text_reads_back (s : str) (data : bytes) :
  encode s = Some data → decode data = Some (universal_newlines s).
Proof.
  unfold encode, decode.
  destruct (mapM utf_8_encode_char s) as [ls|] eqn:E; [|done].
  cbn [mbind option_bind]. intros H.
  by rewrite (bytes_to_N _ _ H), (utf_8_decode_encode _ _ E).
Qed.

End Codec.

(** ** What one file, and a whole run, may change *)

Section Effects.

Variable C : collaborators.

Ltac outcomes H :=
  rewrite process_file_eq in H; cbv zeta in H;
  repeat match type of H with
         | context [match ?x with _ => _ end] => destruct x eqn:?
         | context [if ?x then _ else _] => destruct x eqn:?
         end;
  simplify_eq.

(** The file system after one file: as before, or with the output
    replaced. *)
Lemma process_file_fs (file : str) (w w' : world) (r : result unit) :
  process_file C file w = (r, w') →
  fs w' = fs w
  ∨ ∃ out data, output_path file = Ok out
                ∧ fs w' = mkFs (<[out := data]> (files (fs w)))
                            (unwritable (fs w)).
Proof.
  intros H. outcomes H; cbn [fs]; try (by left); right; by eexists _, _.
Qed.

Lemma process_file_frame (file : str) (w w' : world) (r : result unit) :
  process_file C file w = (r, w') →
  (∀ key, output_path file ≠ Ok key →
     files (fs w') !! key = files (fs w) !! key)
  ∧ (∀ key, is_Some (files (fs w) !! key) →
       is_Some (files (fs w') !! key)).
Proof.
  intros [->|(out & data & Hout & ->)]%process_file_fs; [done|].
  cbn [files]. split; intros key Hk.
  - rewrite lookup_insert_ne; [done | congruence].
  - destruct (decide (out = key)) as [->|Hne].
    + rewrite lookup_insert_eq. eauto.
    + by rewrite lookup_insert_ne.
Qed.

(** X2: processing one file, whatever the outcome, changes no file
    other than the output derived from its path, removes no file and
    leaves the write permissions alone. *)
Theorem process_file_touches_only_its_output (file : str) (w w' : world)
    (r : result unit) :
  process_file C file w = (r, w') →
  unwritable (fs w') = unwritable (fs w)
  ∧ (∀ key, output_path file ≠ Ok key →
       files (fs w') !! key = files (fs w) !! key)
  ∧ (∀ key, is_Some (files (fs w) !! key) →
       is_Some (files (fs w') !! key)).
Proof.
  intros [->|(out & data & Hout & ->)]%process_file_fs; [done|].
  cbn [files unwritable]. split_and!; [done | |]; intros key Hk.
  - rewrite lookup_insert_ne; [done | congruence].
  - destruct (decide (out = key)) as [->|Hne].
    + rewrite lookup_insert_eq. eauto.
    + by rewrite lookup_insert_ne.
Qed.

(** X3: what a file that fails leaves behind.  No write is completed,
    and the file system is as the file found it, except for the output
    of the file once it has been opened for writing: when the captions
    cannot be encoded, the output has been created or emptied by [open]
    and stays empty; when the operating system fails the write, the
    output holds the bytes that were stored, a prefix of the encoded
    captions. *)
Theorem failed_file_leaves_at_most_a_prefix (file : str) (w w' : world)
    (e : exn) :
  process_file C file w = (Raise e, w') →
  writes (io_log w') = writes (io_log w)
  ∧ (fs w' = fs w
     ∨ ∃ out stored,
         output_path file = Ok out
         ∧ fs w' = mkFs (<[out := stored]> (files (fs w)))
                     (unwritable (fs w))
         ∧ (e = UnicodeEncodeError ∧ stored = []
            ∨ e = OSError
              ∧ ∃ key data captions data' n,
                  os_path file = Ok key
                  ∧ files (fs w) !! key = Some data
                  ∧ captions_of C data = Ok captions
                  ∧ encode captions = Some data'
                  ∧ write_fault C out data' = Some n
                  ∧ stored = take n data')).
Proof.
  intros H. pose proof (process_file_effect C _ _ _ _ H) as (_ & _ & _ & Hw).
  split; [by apply Hw|].
  outcomes H; cbn [fs]; try (by left); right; eexists _, _;
    (split; [done|]); (split; [done|]);
    first [ by left
          | right; split; [done|]; eexists _, _, _, _, _; split_and!; done ].
Qed.

Lemma for_each_frame (fl : list str) (w w' : world) (r : result unit) :
  for_each fl (process_file C) w = (r, w') →
  (∀ key, (∀ file, file ∈ fl → output_path file ≠ Ok key) →
     files (fs w') !! key = files (fs w) !! key)
  ∧ (∀ key, is_Some (files (fs w) !! key) →
       is_Some (files (fs w') !! key)).
Proof.
  revert w. induction fl as [|file fl IH]; intros w H.
  - rewrite for_each_nil in H. by simplify_eq.
  - rewrite for_each_cons in H.
    destruct (process_file C file w) as [[e|[]] w1] eqn:E;
      apply process_file_frame in E as (E1 & E2).
    + simplify_eq. split; [|done].
      intros key Hk. apply E1, Hk. by left.
    + apply IH in H as [H1 H2]. split.
      * intros key Hk. rewrite H1 by (intros f Hf; apply Hk; by right).
        apply E1, Hk. by left.
      * intros key Hk. by apply H2, E2.
Qed.

(** X4: a run, whether it ends well or not, changes no file other than
    the outputs derived from the matched paths, and removes no file. *)
Theorem main_touches_only_outputs (argv file_globs : list str)
    (w w' : world) (r : result unit) :
  parse_arguments C argv = Ok file_globs →
  main C argv w = (r, w') →
  (∀ key,
     (∀ file, file ∈ concat (glob_glob C (fs w) <$> file_globs) →
              output_path file ≠ Ok key) →
     files (fs w') !! key = files (fs w) !! key)
  ∧ (∀ key, is_Some (files (fs w) !! key) →
       is_Some (files (fs w') !! key)).
Proof.
  intros Hargs Hmain. rewrite (main_eq C _ _ _ Hargs) in Hmain.
  by apply for_each_frame in Hmain.
Qed.

(** X5: the inputs are left as they were, unless the path of one
    matched file is the output path of a matched file. *)
Theorem inputs_are_kept (argv file_globs : list str) (w w' : world)
    (r : result unit) :
  parse_arguments C argv = Ok file_globs →
  main C argv w = (r, w') →
  (∀ input file key,
     input ∈ concat (glob_glob C (fs w) <$> file_globs) →
     file ∈ concat (glob_glob C (fs w) <$> file_globs) →
     os_path input = Ok key →
     output_path file ≠ Ok key) →
  ∀ input key,
    input ∈ concat (glob_glob C (fs w) <$> file_globs) →
    os_path input = Ok key →
    files (fs w') !! key = files (fs w) !! key.
Proof.
  intros Hargs Hmain Hapart input key Hin Hkey.
  rewrite (main_eq C _ _ _ Hargs) in Hmain.
  apply for_each_frame in Hmain as [Hframe _]. apply Hframe.
  intros file Hfile. by apply (Hapart input file key).
Qed.

Lemma apply_writes_last (ws1 ws2 : list (str * bytes)) (out : str)
    (data : bytes) (fm : gmap str bytes) :
  out ∉ ws2.*1 →
  apply_writes (ws1 ++ (out, data) :: ws2) fm !! out = Some data.
Proof.
  intros Hout. unfold apply_writes. rewrite foldl_app. cbn [foldl fst snd].
  fold (apply_writes ws2
          (<[out := data]> (foldl (λ m wr, <[wr.1 := wr.2]> m) fm ws1))).
  rewrite (proj2 (apply_writes_lookup ws2 _ ∅ out)) by done.
  apply lookup_insert_eq.
Qed.

(** X6: after a run without error an output file holds what was
    written to it last: when several matched paths derive the same
    output, the captions of the last one are what is left. *)
Theorem last_write_wins (argv file_globs : list str) (w w' : world) :
  parse_arguments C argv = Ok file_globs →
  main C argv w = (Ok tt, w') →
  ∃ ws : list (str * bytes),
    writes (io_log w') = writes (io_log w) ++ ws
    ∧ ∀ ws1 out data ws2,
        ws = ws1 ++ (out, data) :: ws2 →
        out ∉ ws2.*1 →
        files (fs w') !! out = Some data.
Proof.
  intros Hargs Hmain. rewrite (main_eq C _ _ _ Hargs) in Hmain.
  apply for_each_Ok in Hmain as (ws & H1 & _ & H3 & _).
  destruct (globs_globbed file_globs w) as (_ & _ & Ew & Ef).
  rewrite Ew in H1. rewrite Ef in H3. exists ws. split; [done|].
  intros ws1 out data ws2 -> Hout. rewrite H3. by apply apply_writes_last.
Qed.

Lemma for_each_log (fl : list str) (w w' : world) :
  for_each fl (process_file C) w = (Ok tt, w') →
  ∃ ws, Forall2 (λ file wr, output_path file = Ok wr.1) fl ws
        ∧ io_log w' = io_log w ++ concat (zip_with file_events fl ws).
Proof.
  revert w. induction fl as [|file fl IH]; intros w H.
  - rewrite for_each_nil in H. simplify_eq. exists [].
    split; [constructor | by rewrite app_nil_r].
  - rewrite for_each_cons in H.
    destruct (process_file C file w) as [[e|[]] w1] eqn:E; [done|].
    apply process_file_Ok in E
      as (key & data & captions & out & data' & _ & _ & _ & Ho & _ & _ & _
          & ->).
    apply IH in H as (ws & H1 & H2). exists ((out, data') :: ws). split.
    + by constructor.
    + rewrite H2. cbn [io_log zip_with concat file_events fst snd].
      by rewrite <-!app_assoc.
Qed.

(** X7: a run without error is strictly sequential.  All the patterns
    are expanded first; then, for each matched path in turn, the file
    is opened for reading, its output is opened for writing and the
    captions are written, before the next file is touched. *)
Theorem run_is_sequential (argv file_globs : list str) (w w' : world) :
  parse_arguments C argv = Ok file_globs →
  main C argv w = (Ok tt, w') →
  ∃ ws : list (str * bytes),
    Forall2 (λ file wr, output_path file = Ok wr.1)
      (concat (glob_glob C (fs w) <$> file_globs)) ws
    ∧ io_log w'
      = io_log w ++ (IoGlob <$> file_globs)
        ++ concat (zip_with file_events
                     (concat (glob_glob C (fs w) <$> file_globs)) ws).
Proof.
  intros Hargs Hmain. rewrite (main_eq C _ _ _ Hargs) in Hmain.
  apply for_each_log in Hmain as (ws & H1 & H2). exists ws.
  split; [done|]. rewrite H2. unfold globbed. cbn [io_log].
  by rewrite <-app_assoc.
Qed.

(** X11: a file converted without error leaves, at its output path, a
    file that holds the captions of what the input held when it was
    read, and nothing else: read the way the script reads text, the
    output gives those captions, line ends normalised. *)
Theorem output_holds_the_captions (file : str) (w w' : world) :
  process_file C file w = (Ok tt, w') →
  ∃ key data captions out data',
    os_path file = Ok key
    ∧ files (fs w) !! key = Some data
    ∧ captions_of C data = Ok captions
    ∧ output_path file = Ok out
    ∧ files (fs w') !! out = Some data'
    ∧ encode captions = Some data'
    ∧ decode data' = Some (universal_newlines captions).
Proof.
  intros (key & data & captions & out & data' & H1 & H2 & H3 & H4 & _
          & H6 & _ & ->)%process_file_Ok.
  exists key, data, captions, out, data'. cbn [fs files].
  split_and!; try done.
  - apply lookup_insert_eq.
  - unfold encode in H6. unfold decode.
    destruct (mapM utf_8_encode_char captions) as [ls|] eqn:E; [|done].
    cbn [mbind option_bind] in H6.
    by rewrite (bytes_to_N _ _ H6), (utf_8_decode_encode _ _ E).
Qed.

(** X12: a run that fails keeps what it has done: the output of every
    file converted before the failure still holds the data last
    written to it, unless it is the output path of the failing file
    itself. *)
Theorem earlier_outputs_survive_a_failure (argv file_globs pre post : list str)
    (file : str) (w w1 w2 : world) (e : exn) :
  parse_arguments C argv = Ok file_globs →
  concat (glob_glob C (fs w) <$> file_globs) = pre ++ file :: post →
  for_each pre (process_file C) (globbed file_globs w) = (Ok tt, w1) →
  process_file C file w1 = (Raise e, w2) →
  main C argv w = (Raise e, w2)
  ∧ ∃ ws : list (str * bytes),
      writes (io_log w2) = writes (io_log w) ++ ws
      ∧ Forall2 (λ f wr, output_path f = Ok wr.1) pre ws
      ∧ ∀ ws1 out data ws2,
          ws = ws1 ++ (out, data) :: ws2 →
          out ∉ ws2.*1 →
          output_path file ≠ Ok out →
          files (fs w2) !! out = Some data.
Proof.
  intros Hargs Hfiles Hpre Hfile. split.
  { rewrite (main_eq C _ _ _ Hargs), Hfiles.
    by rewrite for_each_app, Hpre, for_each_cons, Hfile. }
  pose proof (process_file_effect C _ _ _ _ Hfile) as (_ & _ & _ & Hw).
  apply process_file_frame in Hfile as (Hframe & _).
  apply for_each_Ok in Hpre as (ws & H1 & H2 & H3 & _).
  destruct (globs_globbed file_globs w) as (_ & _ & Ew & Ef).
  rewrite Ew in H1. rewrite Ef in H3. exists ws. split_and!; [|done|].
  - rewrite Hw by done. done.
  - intros ws1 out data ws2 -> Hout Hne.
    rewrite Hframe by done. rewrite H3. by apply apply_writes_last.
Qed.

End Effects.

(** ** Lines 31 and 33 once more *)

Section PathExtras.

Import pathlib.

Lemma replace_from_length (s old : str) :
  ∀ k, (length (replace_from k s old []) ≤ length s - k)%nat.
Proof.
  induction s as [|c s IH]; intros k; [simpl; lia|].
  destruct k as [|k]; cbn [replace_from length].
  - destruct (startswith (c :: s) old).
    + cbn [app]. specialize (IH (length old - 1)%nat). lia.
    + cbn [length]. specialize (IH 0%nat). lia.
  - apply IH.
Qed.

Lemma replace_from_shorter (s old : str) :
  old ≠ [] → contains s old = true →
  (length (replace_from 0 s old []) < length s)%nat.
Proof.
  intros Hold. induction s as [|c s IH]; cbn [contains].
  - destruct old; [done|]. simpl. discriminate.
  - cbn [replace_from length].
    destruct (startswith (c :: s) old) eqn:E; cbn [orb app].
    + intros _. pose proof (replace_from_length s old (length old - 1)). lia.
    + intros H%IH. cbn [length]. lia.
Qed.

(** X8: line 31 leaves a path as it is exactly when the path holds no
    [_response]; otherwise the path gets shorter. *)
Theorem deletion_changes_what_holds_response (file : str) :
  (replace file (u "_response") [] = file
   ↔ contains file (u "_response") = false)
  ∧ (contains file (u "_response") = true →
     (length (replace file (u "_response") []) < length file)%nat)
  ∧ (length (replace file (u "_response") []) ≤ length file)%nat.
Proof.
  assert (contains file (u "_response") = true →
          (length (replace file (u "_response") []) < length file)%nat) as Hlt
    by (apply (replace_from_shorter file (u "_response")); done).
  split_and!; [split| done |].
  - intros E. destruct (contains file (u "_response")) eqn:Hc; [|done].
    specialize (Hlt eq_refl). rewrite E in Hlt. lia.
  - by apply replace_absent.
  - pose proof (replace_from_length file (u "_response") 0). 
    change (replace file (u "_response") [])
      with (replace_from 0 file (u "_response") []). lia.
Qed.

(** X9: what [pathlib] prints is in normal form: parsing the printed
    path gives the path back, so that printing is idempotent, and every
    output path of the script is printed that way. *)
Theorem printed_path_is_normal (s : str) :
  Path (fspath (Path s)) = Path s
  ∧ fspath (Path (fspath (Path s))) = fspath (Path s)
  ∧ ∀ out, output_path s = Ok out → fspath (Path out) = out.
Proof.
  assert (Path (fspath (Path s)) = Path s) as E
    by (apply parse_fspath, parse_path_wf).
  split_and!; [done | by rewrite E |].
  unfold output_path. intros out H.
  destruct (output_file s) as [e|q] eqn:Eq; [done|]. simplify_eq.
  unfold Path. by rewrite parse_fspath by (by eapply output_file_wf).
Qed.

Lemma filter_nil_Forall {A} (P : A → Prop) `{!∀ a, Decision (P a)}
    (l : list A) :
  filter P l = [] ↔ Forall (λ a, ¬ P a) l.
Proof.
  induction l as [|a l IH].
  - split; [constructor | done].
  - destruct (decide (P a)).
    + rewrite filter_cons_True by done. split; [done|].
      intros [? _]%Forall_cons. done.
    + rewrite filter_cons_False, IH by done. split.
      * by constructor.
      * by intros [_ ?]%Forall_cons.
Qed.

Lemma name_nil (p : PurePosixPath) :
  wf_path p → name p = [] ↔ tail p = [].
Proof.
  intros [_ Hws]. unfold name. split; [|by intros ->].
  destruct (decide (tail p = [])) as [?|Hne]; [done|].
  destruct (exists_last Hne) as (ws & w & E). rewrite E in Hws |- *.
  rewrite last_snoc. cbn. intros ->.
  apply Forall_app in Hws as [_ [[? _] _]%Forall_cons]. done.
Qed.

Lemma parse_path_no_name (s : str) :
  name (parse_path s) = []
  ↔ Forall (λ w, w = [] ∨ w = u ".") (split sepchar s).
Proof.
  rewrite name_nil by apply parse_path_wf.
  assert (∀ rel, filter (λ x, x ≠ [] ∧ x ≠ u ".") (split sepchar rel) = []
                 ↔ Forall (λ w, w = [] ∨ w = u ".") (split sepchar rel))
    as Hrel.
  { intros rel. rewrite filter_nil_Forall. apply Forall_proper; [|done].
    intros w. split.
    - intros Hn. destruct (decide (w = [])); [by left|].
      destruct (decide (w = u ".")); [by right|]. by destruct Hn.
    - intros [->| ->] [? ?]; done. }
  unfold parse_path. case_bool_decide as Hs.
  { subst. split; [|done]. intros _. repeat constructor. }
  destruct (splitroot_cases s)
    as [[_ E]|[(r & -> & _ & E)|[(r & -> & _ & E)|(r & -> & E)]]];
    rewrite E; cbn [tail]; rewrite Hrel; cbn [split];
    rewrite ?bool_decide_eq_true_2 by done; rewrite ?Forall_cons;
    intuition auto.
Qed.

(** X10: deriving the output path fails in one way only, the
    [ValueError] of [with_suffix] for a path without a final component,
    and it does so exactly when nothing but [/] and [.] components is
    left once [_response] is deleted, as for a file called
    [_response]. *)
Theorem output_path_fails_without_a_name (file : str) :
  (∀ e, output_path file = Raise e → e = ValueError)
  ∧ (output_path file = Raise ValueError
     ↔ Forall (λ w, w = [] ∨ w = u ".")
         (split sepchar (replace file (u "_response") []))).
Proof.
  rewrite <-parse_path_no_name. unfold output_path, output_file. cbv zeta.
  unfold Path.
  destruct (decide (name (parse_path (replace file (u "_response") [])) = []))
    as [E|E].
  - rewrite (with_suffix_no_name _ E). split; [by intros e [= <-] | done].
  - rewrite (with_suffix_srt _ E). split; [done|]. split; done.
Qed.

End PathExtras.

(** ** Concrete runs for the further properties *)

Section ExtraRuns.

Import pathlib.

Ltac run := vm_compute; reflexivity.

Lemma written_text_witness :
  decode [Byte.xc3; Byte.xa9; Byte.x0d; Byte.x0a;
          Byte.xf0; Byte.x9f; Byte.x98; Byte.x80]
  = Some (universal_newlines [233; 13; 10; 128512]%N).
Proof. apply written_text_reads_back. run. Defined.

Lemma frame_witness :
  process_file Demo.C (u "x_response.json") Demo.w0
  = (Ok tt, (process_file Demo.C (u "x_response.json") Demo.w0).2)
  ∧ ∀ key,
      output_path (u "x_response.json") ≠ Ok key →
      files (fs (process_file Demo.C (u "x_response.json") Demo.w0).2) !! key
      = files (fs Demo.w0) !! key.
Proof.
  assert (process_file Demo.C (u "x_response.json") Demo.w0
          = (Ok tt, (process_file Demo.C (u "x_response.json") Demo.w0).2))
    as H by run.
  split; [exact H|].
  exact (proj1 (proj2 (process_file_touches_only_its_output
                         Demo.C _ _ _ _ H))).
Defined.

Lemma failed_file_witness :
  process_file Demo.C_full (u "x.json") Demo.w0
  = (Raise OSError, (process_file Demo.C_full (u "x.json") Demo.w0).2)
  ∧ writes (io_log (process_file Demo.C_full (u "x.json") Demo.w0).2)
    = writes (io_log Demo.w0)
  ∧ files (fs (process_file Demo.C_full (u "x.json") Demo.w0).2)
      !! u "x.srt" = Some (Demo.b "1" ++ [Byte.x0a]).
Proof.
  assert (process_file Demo.C_full (u "x.json") Demo.w0
          = (Raise OSError,
             (process_file Demo.C_full (u "x.json") Demo.w0).2))
    as H by run.
  split; [exact H|]. split; [|run].
  exact (proj1 (failed_file_leaves_at_most_a_prefix
                  Demo.C_full _ _ _ _ H)).
Defined.

Lemma main_frame_witness :
  main Demo.C [u "x.json"; u "x_response.json"] Demo.w0
  = (Ok tt, Demo.after [u "x.json"; u "x_response.json"] Demo.w0)
  ∧ ∀ key,
      is_Some (files (fs Demo.w0) !! key) →
      is_Some (files (fs (Demo.after [u "x.json"; u "x_response.json"]
                            Demo.w0)) !! key).
Proof.
  assert (main Demo.C [u "x.json"; u "x_response.json"] Demo.w0
          = (Ok tt, Demo.after [u "x.json"; u "x_response.json"] Demo.w0))
    as H by run.
  split; [exact H|].
  exact (proj2 (main_touches_only_outputs Demo.C
                  [u "x.json"; u "x_response.json"]
                  [u "x.json"; u "x_response.json"] Demo.w0 _ _
                  eq_refl H)).
Defined.

Lemma inputs_kept_witness :
  main Demo.C [u "x.json"; u "talks_response/a.json"] Demo.w0
  = (Ok tt, Demo.after [u "x.json"; u "talks_response/a.json"] Demo.w0)
  ∧ ∀ input key,
      input ∈ concat (glob_glob Demo.C (fs Demo.w0)
                        <$> [u "x.json"; u "talks_response/a.json"]) →
      os_path input = Ok key →
      files (fs (Demo.after [u "x.json"; u "talks_response/a.json"]
                   Demo.w0)) !! key
      = files (fs Demo.w0) !! key.
Proof.
  assert (main Demo.C [u "x.json"; u "talks_response/a.json"] Demo.w0
          = (Ok tt, Demo.after [u "x.json"; u "talks_response/a.json"]
                      Demo.w0)) as H by run.
  split; [exact H|].
  refine (inputs_are_kept Demo.C
            [u "x.json"; u "talks_response/a.json"]
            [u "x.json"; u "talks_response/a.json"] Demo.w0 _ _
            eq_refl H _).
  intros input file key Hin Hfile Hkey.
  assert (concat (glob_glob Demo.C (fs Demo.w0)
                    <$> [u "x.json"; u "talks_response/a.json"])
          = [u "x.json"; u "talks_response/a.json"]) as E by run.
  rewrite E in Hin, Hfile.
  assert (os_path (u "x.json") = Ok (u "x.json")) as K1 by run.
  assert (os_path (u "talks_response/a.json")
          = Ok (u "talks_response/a.json")) as K2 by run.
  assert (output_path (u "x.json") = Ok (u "x.srt")) as O1 by run.
  assert (output_path (u "talks_response/a.json") = Ok (u "talks/a.srt"))
    as O2 by run.
  apply elem_of_cons in Hin as [Hi|Hin];
    [|apply elem_of_cons in Hin as [Hi|Hin];
      [|apply elem_of_nil in Hin; destruct Hin]];
    (apply elem_of_cons in Hfile as [Hf|Hfile];
     [|apply elem_of_cons in Hfile as [Hf|Hfile];
       [|apply elem_of_nil in Hfile; destruct Hfile]]);
    rewrite Hi in Hkey; rewrite Hf; rewrite ?K1, ?K2 in Hkey;
    injection Hkey as <-; rewrite ?O1, ?O2; intros Hne; discriminate Hne.
Defined.

Lemma last_write_witness :
  main Demo.C [u "x.json"; u "x_response.json"] Demo.w0
  = (Ok tt, Demo.after [u "x.json"; u "x_response.json"] Demo.w0)
  ∧ ∃ ws : list (str * bytes),
      writes (io_log (Demo.after [u "x.json"; u "x_response.json"] Demo.w0))
      = writes (io_log Demo.w0) ++ ws
      ∧ ∀ ws1 out data ws2,
          ws = ws1 ++ (out, data) :: ws2 →
          out ∉ ws2.*1 →
          files (fs (Demo.after [u "x.json"; u "x_response.json"] Demo.w0))
            !! out = Some data.
Proof.
  assert (main Demo.C [u "x.json"; u "x_response.json"] Demo.w0
          = (Ok tt, Demo.after [u "x.json"; u "x_response.json"] Demo.w0))
    as H by run.
  split; [exact H|].
  exact (last_write_wins Demo.C [u "x.json"; u "x_response.json"]
           [u "x.json"; u "x_response.json"] Demo.w0 _ eq_refl H).
Defined.

Lemma sequential_witness :
  main Demo.C [u "x.json"; u "notes"] Demo.w0
  = (Ok tt, Demo.after [u "x.json"; u "notes"] Demo.w0)
  ∧ ∃ ws : list (str * bytes),
      Forall2 (λ file wr, output_path file = Ok wr.1)
        (concat (glob_glob Demo.C (fs Demo.w0) <$> [u "x.json"; u "notes"]))
        ws
      ∧ io_log (Demo.after [u "x.json"; u "notes"] Demo.w0)
        = io_log Demo.w0 ++ (IoGlob <$> [u "x.json"; u "notes"])
          ++ concat (zip_with file_events
                       (concat (glob_glob Demo.C (fs Demo.w0)
                                  <$> [u "x.json"; u "notes"])) ws).
Proof.
  assert (main Demo.C [u "x.json"; u "notes"] Demo.w0
          = (Ok tt, Demo.after [u "x.json"; u "notes"] Demo.w0)) as H by run.
  split; [exact H|].
  exact (run_is_sequential Demo.C [u "x.json"; u "notes"]
           [u "x.json"; u "notes"] Demo.w0 _ eq_refl H).
Defined.

Lemma deletion_witness :
  (length (replace (u "a_response.json") (u "_response") [])
   < length (u "a_response.json"))%nat.
Proof.
  apply (proj1 (proj2 (deletion_changes_what_holds_response
                         (u "a_response.json")))).
  run.
Defined.

Lemma printed_path_witness :
  fspath (Path (u "talks/a.srt")) = u "talks/a.srt".
Proof.
  apply (proj2 (proj2 (printed_path_is_normal (u "talks_response/a.json")))).
  run.
Defined.

Lemma no_name_witness : output_path (u "./_response") = Raise ValueError.
Proof.
  apply (proj2 (proj2 (output_path_fails_without_a_name (u "./_response")))).
  assert (split sepchar (replace (u "./_response") (u "_response") [])
          = [u "."; []]) as -> by run.
  constructor; [right; reflexivity|].
  constructor; [left; reflexivity | constructor].
Defined.

Lemma captions_witness :
  process_file Demo.C (u "x_response.json") Demo.w0
  = (Ok tt, (process_file Demo.C (u "x_response.json") Demo.w0).2)
  ∧ ∃ key data captions out data',
      os_path (u "x_response.json") = Ok key
      ∧ files (fs Demo.w0) !! key = Some data
      ∧ captions_of Demo.C data = Ok captions
      ∧ output_path (u "x_response.json") = Ok out
      ∧ files (fs (process_file Demo.C (u "x_response.json") Demo.w0).2)
          !! out = Some data'
      ∧ encode captions = Some data'
      ∧ decode data' = Some (universal_newlines captions).
Proof.
  assert (process_file Demo.C (u "x_response.json") Demo.w0
          = (Ok tt, (process_file Demo.C (u "x_response.json") Demo.w0).2))
    as H by run.
  split; [exact H|].
  exact (output_holds_the_captions Demo.C _ _ _ H).
Defined.

Lemma survive_witness :
  main Demo.C [u "x.json"; u "bad.json"; u "notes"] Demo.w0
  = (Raise JSONDecodeError,
     Demo.after [u "x.json"; u "bad.json"; u "notes"] Demo.w0)
  ∧ ∃ ws : list (str * bytes),
      writes (io_log (Demo.after [u "x.json"; u "bad.json"; u "notes"]
                        Demo.w0))
      = writes (io_log Demo.w0) ++ ws
      ∧ Forall2 (λ f wr, output_path f = Ok wr.1) [u "x.json"] ws
      ∧ ∀ ws1 out data ws2,
          ws = ws1 ++ (out, data) :: ws2 →
          out ∉ ws2.*1 →
          output_path (u "bad.json") ≠ Ok out →
          files (fs (Demo.after [u "x.json"; u "bad.json"; u "notes"]
                       Demo.w0)) !! out = Some data.
Proof.
  refine (earlier_outputs_survive_a_failure Demo.C
            [u "x.json"; u "bad.json"; u "notes"]
            [u "x.json"; u "bad.json"; u "notes"]
            [u "x.json"] [u "notes"] (u "bad.json") Demo.w0
            (for_each [u "x.json"] (process_file Demo.C)
               (globbed [u "x.json"; u "bad.json"; u "notes"] Demo.w0)).2
            (Demo.after [u "x.json"; u "bad.json"; u "notes"] Demo.w0)
            JSONDecodeError eq_refl _ _ _); run.
Defined.

End ExtraRuns.
